(** * Archive overlap finder: the scanning and matching engine of [main.py]

    A shallow embedding of the engine functions of [src/main.py]
    ([_check_match], [worker_search_file], [get_tokens],
    [worker_similarity_scan], [DeepInspector], [SearchLogic]) and the
    properties of the specification checked against them.

    Modelling conventions.
    - Text is a Stdlib [string]; its characters stand for the code points
      0..255, and Python's [str] methods are transcribed for that range.
    - Python floats are binary64 numbers.  Module [F64] represents a finite
      double by the rational it denotes and rounds every operation to the
      nearest double, ties to even.
    - Token sets are finite sets of strings ([gset string]).
    - What the operating system decides (file contents, directory walks,
      path normalisation, the order in which pool jobs complete, the moment
      the stop flag is raised) is an argument of the model.
    - A callback is recorded as an event with its arguments; callbacks are
      taken to return, and no [KeyboardInterrupt] arrives during a run. *)

From Stdlib Require Import ZArith QArith Qround Lia Lqa List String Ascii.
From Stdlib Require Import Sorting.Sorted Sorting.Permutation DecimalString.
From stdpp Require Import gmap strings.

(** ** Binary64 arithmetic *)

Module F64.

Local Open Scope Z_scope.

(** [rne n d]: the integer nearest to [n / d], ties to the even one
    ([0 <= n], [0 < d]). *)
Definition rne (n d : Z) : Z :=
  let q := n / d in
  let r := n mod d in
  if 2 * r <? d then q
  else if d <? 2 * r then q + 1
  else if Z.even q then q else q + 1.

(** [n / d * 2 ^ s] as a fraction of integers, for either sign of [s]. *)
Definition scale_num (n s : Z) : Z := n * 2 ^ Z.max 0 s.
Definition scale_den (d s : Z) : Z := d * 2 ^ Z.max 0 (- s).

(** The shift [s] that brings [n / d] into the binade
    [2 ^ 52 <= n / d * 2 ^ s < 2 ^ 53]. *)
Definition binade (n d : Z) : Z :=
  let s0 := 52 + Z.log2 d - Z.log2 n in
  if scale_num n s0 <? 2 ^ 52 * scale_den d s0 then s0 + 1 else s0.

(** The 53-bit significand of the double nearest to [n / d]. *)
Definition mant (n d : Z) : Z :=
  rne (scale_num n (binade n d)) (scale_den d (binade n d)).

(** The double nearest to the positive rational [n / d]. *)
Definition round53 (n d : Z) : Q :=
  let s := binade n d in
  Qred (Qmake (mant n d * 2 ^ Z.max 0 (- s)) (Z.to_pos (2 ^ Z.max 0 s))).

(** Rounding of an exact result to binary64.  The exponent range is not
    bounded: the values of this program stay far from overflow and
    underflow. *)
Definition fl (x : Q) : Q :=
  let x' := Qred x in
  match Qnum x' with
  | Z0 => 0%Q
  | Zpos _ => round53 (Qnum x') (QDen x')
  | Zneg _ => Qopp (round53 (- Qnum x') (QDen x'))
  end.

(** Python's [a / b] on floats or ints and [a * b] on floats. *)
Definition fdiv (x y : Q) : Q := fl (x / y).
Definition fmul (x y : Q) : Q := fl (x * y).

(** Python's [int(x)]: truncation towards zero. *)
Definition int (x : Q) : Z := Z.quot (Qnum x) (QDen x).

(** Python's [round(x, 1)] for [0 <= x]: the decimal with one digit nearest
    to the exact value of [x], ties to even.  The result stands for the
    double nearest to that decimal. *)
Definition round1 (x : Q) : Q :=
  Qred (Qmake (rne (10 * Qnum x) (QDen x)) 10).

Definition gtb (x y : Q) : bool := negb (Qle_bool x y).
Definition ltb (x y : Q) : bool := negb (Qle_bool y x).

(** *** Properties of the rounding *)

Lemma rne_cases n d : 0 < d ->
  exists q r, n = d * q + r /\ 0 <= r < d /\
    ((2 * r < d /\ rne n d = q) \/ (d < 2 * r /\ rne n d = q + 1) \/
     (2 * r = d /\ Z.even q = true /\ rne n d = q) \/
     (2 * r = d /\ Z.even q = false /\ rne n d = q + 1)).
Proof.
  intros Hd. exists (n / d), (n mod d).
  split; [apply Z.div_mod; lia|]. split; [apply Z.mod_pos_bound; lia|].
  unfold rne. cbv zeta.
  destruct (Z.ltb_spec (2 * (n mod d)) d); [left; lia|].
  destruct (Z.ltb_spec d (2 * (n mod d))); [right; left; lia|].
  destruct (Z.even (n / d)) eqn:E; right; right; [left|right]; repeat split; lia.
Qed.

Lemma rne_mono n1 d1 n2 d2 :
  0 < d1 -> 0 < d2 -> n1 * d2 <= n2 * d1 -> rne n1 d1 <= rne n2 d2.
Proof.
  intros H1 H2 Hle.
  destruct (rne_cases n1 d1 H1) as (q1 & r1 & E1 & B1 & C1).
  destruct (rne_cases n2 d2 H2) as (q2 & r2 & E2 & B2 & C2).
  assert (q1 <= q2).
  { destruct (Z_le_gt_dec q1 q2) as [|Hgt]; [assumption|exfalso].
    assert (d1 * d2 * (q2 + 1) <= d1 * d2 * q1) by (apply Z.mul_le_mono_nonneg_l; nia).
    subst n1 n2. nia. }
  destruct (Z.eq_dec q1 q2) as [->|Hne].
  - assert (r1 * d2 <= r2 * d1) by (subst n1 n2; nia).
    destruct C1 as [[? ->]|[[? ->]|[(? & ? & ->)|(? & ? & ->)]]];
    destruct C2 as [[? ->]|[[? ->]|[(? & ? & ->)|(? & ? & ->)]]]; try lia; try nia; congruence.
  - assert (q1 + 1 <= q2) by lia.
    destruct C1 as [[? ->]|[[? ->]|[(? & ? & ->)|(? & ? & ->)]]];
    destruct C2 as [[? ->]|[[? ->]|[(? & ? & ->)|(? & ? & ->)]]]; lia.
Qed.

Lemma rne_exact k d : 0 < d -> rne (k * d) d = k.
Proof.
  intros Hd. unfold rne. rewrite Z.div_mul, Z.mod_mul by lia. cbv zeta.
  destruct (Z.ltb_spec (2 * 0) d); lia.
Qed.

Lemma pow2_succ k : 0 <= k -> 2 ^ (k + 1) = 2 * 2 ^ k.
Proof. intros. rewrite Z.pow_add_r by lia. lia. Qed.
Lemma binade_spec n d : 0 < n -> 0 < d ->
  2 ^ 52 * scale_den d (binade n d) <= scale_num n (binade n d) < 2 ^ 53 * scale_den d (binade n d).
Proof.
  intros Hn Hd.
  pose proof (Z.log2_spec n Hn) as [La Ua].
  pose proof (Z.log2_spec d Hd) as [Lb Ub].
  pose proof (Z.log2_nonneg n) as Na. pose proof (Z.log2_nonneg d) as Nb.
  unfold binade. set (a := Z.log2 n) in *. set (b := Z.log2 d) in *.
  replace (Z.succ a) with (a + 1) in Ua by lia.
  replace (Z.succ b) with (b + 1) in Ub by lia.
  rewrite pow2_succ in Ua, Ub by lia.
  cbv zeta. unfold scale_num, scale_den.
  destruct (Z_le_gt_dec 0 (52 + b - a)) as [Hs|Hs].
  - replace (Z.max 0 (52 + b - a)) with (52 + b - a) by lia.
    replace (Z.max 0 (- (52 + b - a))) with 0 by lia.
    assert (E : 2 ^ a * 2 ^ (52 + b - a) = 2 ^ 52 * 2 ^ b).
    { rewrite <- !Z.pow_add_r by lia. f_equal. lia. }
    assert (P : 0 < 2 ^ (52 + b - a)) by (apply Z.pow_pos_nonneg; lia).
    destruct (Z.ltb_spec (n * 2 ^ (52 + b - a)) (2 ^ 52 * (d * 2 ^ 0))) as [T|T].
    + replace (Z.max 0 (52 + b - a + 1)) with (52 + b - a + 1) by lia.
      replace (Z.max 0 (- (52 + b - a + 1))) with 0 by lia.
      rewrite pow2_succ by lia. change (2 ^ 0) with 1 in *. nia.
    + replace (Z.max 0 (52 + b - a)) with (52 + b - a) by lia.
      replace (Z.max 0 (- (52 + b - a))) with 0 by lia.
      change (2 ^ 0) with 1 in *. nia.
  - replace (Z.max 0 (52 + b - a)) with 0 by lia.
    replace (Z.max 0 (- (52 + b - a))) with (a - 52 - b) by lia.
    assert (E : 2 ^ 52 * 2 ^ b * 2 ^ (a - 52 - b) = 2 ^ a).
    { rewrite <- !Z.pow_add_r by lia. f_equal. lia. }
    assert (P : 0 < 2 ^ (a - 52 - b)) by (apply Z.pow_pos_nonneg; lia).
    change (2 ^ 0) with 1.
    destruct (Z.ltb_spec (n * 1) (2 ^ 52 * (d * 2 ^ (a - 52 - b)))) as [T|T].
    + replace (Z.max 0 (52 + b - a + 1)) with 0 by lia.
      replace (Z.max 0 (- (52 + b - a + 1))) with (a - 52 - b - 1) by lia.
      assert (E2 : 2 ^ (a - 52 - b) = 2 * 2 ^ (a - 52 - b - 1)).
      { rewrite <- pow2_succ by lia. f_equal. lia. }
      assert (P2 : 0 < 2 ^ (a - 52 - b - 1)) by (apply Z.pow_pos_nonneg; lia).
      change (2 ^ 0) with 1. nia.
    + replace (Z.max 0 (52 + b - a)) with 0 by lia.
      replace (Z.max 0 (- (52 + b - a))) with (a - 52 - b) by lia.
      change (2 ^ 0) with 1. nia.
Qed.

Lemma binade_nonneg n d : 0 < n -> 0 < d -> n < 2 ^ 53 * d -> 0 <= binade n d.
Proof.
  intros Hn Hd Hlt. pose proof (binade_spec n d Hn Hd) as [L _].
  destruct (Z_le_gt_dec 0 (binade n d)) as [|Hneg]; [assumption|exfalso].
  unfold scale_num, scale_den in L.
  replace (Z.max 0 (binade n d)) with 0 in L by lia.
  replace (Z.max 0 (- binade n d)) with (- binade n d - 1 + 1) in L by lia.
  rewrite pow2_succ in L by lia.
  assert (0 < 2 ^ (- binade n d - 1)) by (apply Z.pow_pos_nonneg; lia).
  change (2 ^ 0) with 1 in L. nia.
Qed.



Lemma mant_bounds n d : 0 < n -> 0 < d -> 2 ^ 52 <= mant n d <= 2 ^ 53.
Proof.
  intros Hn Hd. pose proof (binade_spec n d Hn Hd) as [L U].
  assert (Dp : 0 < scale_den d (binade n d)).
  { unfold scale_den. apply Z.mul_pos_pos; [lia|apply Z.pow_pos_nonneg; lia]. }
  unfold mant. split.
  - pose proof (rne_exact (2 ^ 52) _ Dp) as E. rewrite <- E at 1.
    apply rne_mono; try assumption. nia.
  - pose proof (rne_exact (2 ^ 53) _ Dp) as E.
    etransitivity; [|apply Z.eq_le_incl, E].
    apply rne_mono; try assumption. nia.
Qed.

Lemma round53_mono n1 d1 n2 d2 :
  0 < n1 -> 0 < d1 -> 0 < n2 -> 0 < d2 -> n2 < 2 ^ 53 * d2 ->
  n1 * d2 <= n2 * d1 -> (round53 n1 d1 <= round53 n2 d2)%Q.
Proof.
  intros Hn1 Hd1 Hn2 Hd2 Hb2 Hle.
  assert (Hb1 : n1 < 2 ^ 53 * d1) by nia.
  pose proof (binade_nonneg n1 d1 Hn1 Hd1 Hb1) as S1.
  pose proof (binade_nonneg n2 d2 Hn2 Hd2 Hb2) as S2.
  pose proof (binade_spec n1 d1 Hn1 Hd1) as [L1 U1].
  pose proof (binade_spec n2 d2 Hn2 Hd2) as [L2 U2].
  pose proof (mant_bounds n1 d1 Hn1 Hd1) as [ML1 MU1].
  pose proof (mant_bounds n2 d2 Hn2 Hd2) as [ML2 MU2].
  unfold round53. fold (mant n1 d1). fold (mant n2 d2).
  rewrite !Qred_correct.
  unfold mant in *. unfold scale_num, scale_den in *.
  set (s1 := binade n1 d1) in *. set (s2 := binade n2 d2) in *.
  replace (Z.max 0 s1) with s1 in * by lia.
  replace (Z.max 0 s2) with s2 in * by lia.
  replace (Z.max 0 (- s1)) with 0 in * by lia.
  replace (Z.max 0 (- s2)) with 0 in * by lia.
  change (2 ^ 0) with 1 in *. rewrite !Z.mul_1_r in *.
  assert (P1 : 0 < 2 ^ s1) by (apply Z.pow_pos_nonneg; lia).
  assert (P2 : 0 < 2 ^ s2) by (apply Z.pow_pos_nonneg; lia).
  unfold Qle; cbn [Qnum Qden]. rewrite !Z2Pos.id by assumption.
  set (m1 := rne (n1 * 2 ^ s1) d1) in *. set (m2 := rne (n2 * 2 ^ s2) d2) in *.
  destruct (Z.lt_trichotomy s1 s2) as [Hlt|[Heq|Hgt]].
  - exfalso. replace s2 with (s1 + (s2 - s1 - 1) + 1) in U2 by lia.
    rewrite pow2_succ, Z.pow_add_r in U2 by lia.
    assert (0 < 2 ^ (s2 - s1 - 1)) by (apply Z.pow_pos_nonneg; lia).
    assert (n1 * 2 ^ s1 * d2 <= n2 * 2 ^ s1 * d1) by nia.
    assert (2 ^ 52 * d1 * d2 <= n2 * 2 ^ s1 * d1) by nia.
    assert (2 ^ 52 * d2 <= n2 * 2 ^ s1) by nia.
    nia.
  - assert (m1 <= m2).
    { subst m1 m2. apply rne_mono; try assumption. rewrite Heq. nia. }
    rewrite Heq. nia.
  - replace s1 with (s2 + (s1 - s2 - 1) + 1) by lia.
    rewrite pow2_succ, Z.pow_add_r by lia.
    assert (HK : 0 < 2 ^ (s1 - s2 - 1)) by (apply Z.pow_pos_nonneg; lia).
    clearbody m1 m2. clear - MU1 ML2 P2 HK.
    change (2 ^ 53) with (2 * 2 ^ 52) in MU1.
    set (c := 2 ^ 52) in *. set (P := 2 ^ s2) in *.
    set (K := 2 ^ (s1 - s2 - 1)) in *.
    assert (0 <= c) by (subst c; apply Z.pow_nonneg; lia). clearbody c P K.
    apply Z.le_trans with (2 * c * P);
      [apply Z.mul_le_mono_nonneg_r; lia|].
    apply Z.le_trans with (2 * m2 * P);
      [apply Z.mul_le_mono_nonneg_r; lia|].
    replace (m2 * (2 * (P * K))) with (2 * m2 * P * K) by ring.
    rewrite <- (Z.mul_1_r (2 * m2 * P)) at 1.
    apply Z.mul_le_mono_nonneg_l; [apply Z.mul_nonneg_nonneg; lia|lia].
Qed.

Lemma round53_pos n d : 0 < n -> 0 < d -> (0 < round53 n d)%Q.
Proof.
  intros Hn Hd. pose proof (mant_bounds n d Hn Hd) as [L _].
  unfold round53. rewrite Qred_correct. unfold Qlt; cbn [Qnum Qden].
  assert (0 < 2 ^ Z.max 0 (- binade n d)) by (apply Z.pow_pos_nonneg; lia).
  assert (0 < 2 ^ 52) by reflexivity.
  rewrite Z.mul_1_r. apply Z.mul_pos_pos; lia.
Qed.

Lemma Qred_num_sign x : (0 <= x)%Q -> 0 <= Qnum (Qred x).
Proof.
  intros H. rewrite <- (Qred_correct x) in H.
  unfold Qle in H; cbn in H. lia.
Qed.

Lemma fl_compat x y : (x == y)%Q -> fl x = fl y.
Proof. intros H. unfold fl. now rewrite (Qred_complete x y H). Qed.

Lemma fl_nonneg x : (0 <= x)%Q -> (0 <= fl x)%Q.
Proof.
  intros H. pose proof (Qred_num_sign x H) as Hs. unfold fl.
  destruct (Qnum (Qred x)) eqn:E; [apply Qle_refl| |lia].
  apply Qlt_le_weak, round53_pos; [reflexivity|lia].
Qed.

(** Rounding is monotone (on the values below [2 ^ 53], which have a
    non-negative shift). *)
Lemma fl_mono x y :
  (0 <= x)%Q -> (x <= y)%Q -> (y < inject_Z (2 ^ 53))%Q -> (fl x <= fl y)%Q.
Proof.
  intros H0 Hxy Hy.
  assert (H0y : (0 <= y)%Q) by (eapply Qle_trans; eassumption).
  pose proof (Qred_num_sign x H0) as Sx. pose proof (Qred_num_sign y H0y) as Sy.
  rewrite <- (Qred_correct x), <- (Qred_correct y) in Hxy.
  rewrite <- (Qred_correct y) in Hy.
  pose proof (fl_nonneg y H0y) as Ny.
  unfold fl in *.
  destruct (Qnum (Qred x)) eqn:Ex; [assumption| |lia].
  destruct (Qnum (Qred y)) eqn:Ey.
  - exfalso. unfold Qle in Hxy. rewrite Ex, Ey in Hxy. cbn in Hxy. lia.
  - apply round53_mono; try reflexivity; try lia.
    + unfold Qlt in Hy. rewrite Ey in Hy. cbn [Qnum Qden inject_Z] in Hy.
      lia.
    + unfold Qle in Hxy. rewrite Ex, Ey in Hxy. exact Hxy.
  - lia.
Qed.

Lemma floor_div_mono a b c d :
  0 < b -> 0 < d -> a * d <= c * b -> a / b <= c / d.
Proof.
  intros Hb Hd Hle.
  pose proof (Z.div_mod a b ltac:(lia)) as Ea.
  pose proof (Z.mod_pos_bound a b Hb) as Ba.
  pose proof (Z.div_mod c d ltac:(lia)) as Ec.
  pose proof (Z.mod_pos_bound c d Hd) as Bc.
  set (q1 := a / b) in *. set (q2 := c / d) in *.
  set (r1 := a mod b) in *. set (r2 := c mod d) in *.
  clearbody q1 q2 r1 r2.
  destruct (Z_le_gt_dec q1 q2) as [|Hgt]; [assumption|exfalso].
  assert (b * d * (q2 + 1) <= b * d * q1)
    by (apply Z.mul_le_mono_nonneg_l; [apply Z.mul_nonneg_nonneg|]; lia).
  subst a c. nia.
Qed.

Lemma int_mono x y : (0 <= x)%Q -> (x <= y)%Q -> int x <= int y.
Proof.
  intros H0 Hxy. unfold int.
  assert (0 <= Qnum x) by (unfold Qle in H0; cbn in H0; lia).
  assert (0 <= Qnum y).
  { assert (Hy : (0 <= y)%Q) by (eapply Qle_trans; eassumption).
    unfold Qle in Hy; cbn in Hy; lia. }
  rewrite !Z.quot_div_nonneg by lia.
  apply floor_div_mono; try lia. exact Hxy.
Qed.

(** *** The operations on quotients of integers *)

Lemma fdiv_Z i u : 0 < u -> fdiv (inject_Z i) (inject_Z u) = fl (i # Z.to_pos u).
Proof.
  intros Hu. unfold fdiv. apply fl_compat.
  rewrite (Qmake_Qdiv i (Z.to_pos u)). rewrite Z2Pos.id by assumption.
  reflexivity.
Qed.

Lemma Qle_frac a b c d :
  0 < b -> 0 < d -> a * d <= c * b -> (a # Z.to_pos b <= c # Z.to_pos d)%Q.
Proof.
  intros Hb Hd H. unfold Qle; cbn [Qnum Qden].
  rewrite !Z2Pos.id by assumption. exact H.
Qed.

Lemma fdiv_mono i j u :
  0 <= i -> i <= j -> j <= u -> 0 < u ->
  (fdiv (inject_Z i) (inject_Z u) <= fdiv (inject_Z j) (inject_Z u))%Q.
Proof.
  intros Hi Hij Hju Hu. rewrite !fdiv_Z by assumption.
  apply fl_mono.
  - unfold Qle; cbn. lia.
  - apply Qle_frac; try assumption. nia.
  - unfold Qlt; cbn [Qnum Qden inject_Z]. rewrite Z2Pos.id by assumption.
    assert (1 < 2 ^ 53) by reflexivity. nia.
Qed.

Lemma fl_one : fl 1 = 1%Q.
Proof. vm_compute. reflexivity. Qed.

Lemma fdiv_same u : 0 < u -> fdiv (inject_Z u) (inject_Z u) = 1%Q.
Proof.
  intros Hu. rewrite fdiv_Z by assumption. rewrite <- fl_one.
  apply fl_compat. unfold Qeq; cbn. rewrite Z2Pos.id by assumption. lia.
Qed.

Lemma fdiv_nonneg i u :
  0 <= i -> 0 < u -> (0 <= fdiv (inject_Z i) (inject_Z u))%Q.
Proof.
  intros Hi Hu. rewrite fdiv_Z by assumption. apply fl_nonneg.
  unfold Qle; cbn. lia.
Qed.

Lemma fdiv_le_one i u :
  0 <= i -> i <= u -> 0 < u -> (fdiv (inject_Z i) (inject_Z u) <= 1)%Q.
Proof.
  intros Hi Hiu Hu. rewrite <- (fdiv_same u Hu).
  apply fdiv_mono; lia.
Qed.

(** Multiplication by 100 of values in [0, 1] is monotone. *)
Lemma fmul100_mono x y :
  (0 <= x)%Q -> (x <= y)%Q -> (y <= 1)%Q -> (fmul x 100 <= fmul y 100)%Q.
Proof.
  intros H0 Hxy Hy. unfold fmul. apply fl_mono.
  - apply Qmult_le_0_compat; [assumption|discriminate].
  - apply Qmult_le_compat_r; [assumption|discriminate].
  - apply Qle_lt_trans with (1 * 100)%Q.
    + apply Qmult_le_compat_r; [assumption|discriminate].
    + reflexivity.
Qed.

Lemma gtb_true x y : gtb x y = true <-> (y < x)%Q.
Proof.
  unfold gtb. rewrite negb_true_iff.
  split.
  - intros H. apply Qnot_le_lt. intros Hle.
    apply Qle_bool_iff in Hle. congruence.
  - intros H. destruct (Qle_bool x y) eqn:E; [|reflexivity].
    apply Qle_bool_iff in E. exfalso. eapply Qlt_not_le; eassumption.
Qed.

Lemma gtb_false x y : gtb x y = false <-> (x <= y)%Q.
Proof.
  unfold gtb. rewrite negb_false_iff. apply Qle_bool_iff.
Qed.

(** The results of [fl] are in lowest terms, so that equal values are
    equal terms. *)
Lemma fl_canonical x : Qred (fl x) = fl x.
Proof.
  unfold fl. destruct (Qnum (Qred x)); [reflexivity| |].
  - unfold round53. apply Qred_complete, Qred_correct.
  - unfold round53. rewrite Qred_opp. f_equal.
    apply Qred_complete, Qred_correct.
Qed.

Lemma fl_eq_of_Qeq x y : (fl x == y)%Q -> Qred y = y -> fl x = y.
Proof.
  intros H Hy. rewrite <- (fl_canonical x), <- Hy. now apply Qred_complete.
Qed.

Lemma fmul100_one x : (x == 1)%Q -> fmul x 100 = 100%Q.
Proof.
  intros H. unfold fmul. transitivity (fl 100); [|vm_compute; reflexivity].
  apply fl_compat. rewrite H. reflexivity.
Qed.

Lemma fmul100_le x : (0 <= x)%Q -> (x <= 1)%Q -> (fmul x 100 <= 100)%Q.
Proof.
  intros H0 H1. rewrite <- (fmul100_one 1 ltac:(reflexivity)) at 2.
  apply fmul100_mono; try assumption. apply Qle_refl.
Qed.

Lemma fmul_canonical x y : Qred (fmul x y) = fmul x y.
Proof. apply fl_canonical. Qed.


(** *** The rounding error *)

(** Rounding to nearest moves a value by at most one part in [2 ^ 53]. *)
Lemma round53_error n d :
  0 < n -> 0 < d -> n < 2 ^ 53 * d ->
  (round53 n d <= (n # Z.to_pos d) * ((2 ^ 53 + 1) # Z.to_pos (2 ^ 53)))%Q
  /\ ((n # Z.to_pos d) * ((2 ^ 53 - 1) # Z.to_pos (2 ^ 53)) <= round53 n d)%Q.
Proof.
  intros Hn Hd Hb.
  pose proof (binade_nonneg n d Hn Hd Hb) as S1.
  pose proof (binade_spec n d Hn Hd) as [L U].
  unfold round53. fold (mant n d). rewrite !Qred_correct.
  unfold mant. unfold scale_num, scale_den in *.
  set (s := binade n d) in *.
  replace (Z.max 0 s) with s in * by lia.
  replace (Z.max 0 (- s)) with 0 in * by lia.
  change (2 ^ 0) with 1 in *. rewrite !Z.mul_1_r in *.
  assert (P : 0 < 2 ^ s) by (apply Z.pow_pos_nonneg; lia).
  destruct (rne_cases (n * 2 ^ s) d Hd) as (q & r & E & B & C).
  set (m := rne (n * 2 ^ s) d) in *.
  assert (Hup : 2 * (m * d) <= 2 * (n * 2 ^ s) + d)
    by (destruct C as [[? ->]|[[? ->]|[(? & ? & ->)|(? & ? & ->)]]]; lia).
  assert (Hlo : 2 * (n * 2 ^ s) <= 2 * (m * d) + d)
    by (destruct C as [[? ->]|[[? ->]|[(? & ? & ->)|(? & ? & ->)]]]; lia).
  unfold Qle, Qmult; cbn [Qnum Qden].
  rewrite !Pos2Z.inj_mul, !Z2Pos.id by (try assumption; reflexivity).
  change (2 ^ 53) with (2 * 2 ^ 52) in *.
  set (c := 2 ^ 52) in *.
  assert (Hc : 0 < c) by reflexivity.
  set (A := 2 ^ s) in *. set (X := n * A) in *. set (Y := m * d) in *.
  clearbody c A m. clear - Hup Hlo L Hc Hd.
  split.
  - replace (m * (d * (2 * c))) with (c * (2 * Y)) by (subst Y; ring).
    replace (n * (2 * c + 1) * A) with (c * (2 * X) + X) by (subst X; ring).
    clearbody X Y.
    apply Z.le_trans with (c * (2 * X + d)).
    + apply Z.mul_le_mono_nonneg_l; lia.
    + lia.
  - replace (m * (d * (2 * c))) with (c * (2 * Y)) by (subst Y; ring).
    replace (n * (2 * c - 1) * A) with (c * (2 * X) - X) by (subst X; ring).
    clearbody X Y.
    apply Z.le_trans with (c * (2 * X - d)).
    + lia.
    + apply Z.mul_le_mono_nonneg_l; lia.
Qed.

Lemma fl_error x :
  (0 <= x)%Q -> (x < inject_Z (2 ^ 53))%Q ->
  (fl x <= x * (9007199254740993 # 9007199254740992))%Q
  /\ (x * (9007199254740991 # 9007199254740992) <= fl x)%Q.
Proof.
  intros H0 Hb. pose proof (Qred_num_sign x H0) as Sx.
  rewrite <- (Qred_correct x) in Hb. rewrite <- (Qred_correct x) at 2 3.
  unfold fl. destruct (Qred x) as [n d]. cbn [Qnum Qden] in *.
  destruct n as [|p|p]; [| |lia].
  - split; unfold Qle; cbn; lia.
  - assert (Hlt : Z.pos p < 2 ^ 53 * Z.pos d).
    { unfold Qlt in Hb. cbn [Qnum Qden inject_Z] in Hb. lia. }
    pose proof (round53_error (Z.pos p) (Z.pos d) eq_refl eq_refl Hlt) as H.
    exact H.
Qed.

(** [int] is the floor of a non-negative value. *)
Lemma int_floor x :
  (0 <= x)%Q -> (inject_Z (int x) <= x)%Q /\ (x < inject_Z (int x) + 1)%Q.
Proof.
  intros H0. unfold int.
  assert (Hn : 0 <= Qnum x) by (unfold Qle in H0; cbn in H0; lia).
  rewrite Z.quot_div_nonneg by lia.
  pose proof (Z.div_mod (Qnum x) (QDen x) ltac:(lia)) as E.
  pose proof (Z.mod_pos_bound (Qnum x) (QDen x) ltac:(lia)) as B.
  set (q := Qnum x / QDen x) in *. set (r := Qnum x mod QDen x) in *.
  clearbody q r. destruct x as [n d]. cbn [Qnum Qden] in *.
  split.
  - unfold Qle; cbn [Qnum Qden inject_Z]. nia.
  - unfold Qlt, Qplus; cbn [Qnum Qden inject_Z]. nia.
Qed.

(** [int(i / u * 100)] is the exact percentage rounded down, or one below
    it (as for [29 / 100]), for totals up to [2 ^ 44]. *)
Lemma percentage_bounds i u :
  0 <= i -> i <= u -> 0 < u -> u <= 2 ^ 44 ->
  100 * i / u - 1 <= int (fmul (fdiv (inject_Z i) (inject_Z u)) 100)
  <= 100 * i / u.
Proof.
  intros Hi Hiu Hu Hbig.
  rewrite fdiv_Z by assumption. unfold fmul.
  set (q := (i # Z.to_pos u)%Q).
  assert (Hq0 : (0 <= q)%Q) by (unfold q, Qle; cbn; lia).
  assert (Hq1 : (q <= 1)%Q).
  { unfold q, Qle; cbn [Qnum Qden]. rewrite Z2Pos.id by assumption. lia. }
  destruct (fl_error q Hq0) as [Xu Xl].
  { apply Qle_lt_trans with 1%Q; [assumption|reflexivity]. }
  set (x := fl q) in *.
  assert (Hx0 : (0 <= x * 100)%Q) by lra.
  destruct (fl_error (x * 100) Hx0) as [Yu Yl].
  { apply Qle_lt_trans with 200%Q; [lra|reflexivity]. }
  set (y := fl (x * 100)) in *.
  assert (Hy0 : (0 <= y)%Q) by lra.
  destruct (int_floor y Hy0) as [Pl Pu].
  set (p := int y) in *.
  pose proof (Z.div_mod (100 * i) u ltac:(lia)) as E.
  pose proof (Z.mod_pos_bound (100 * i) u Hu) as B.
  set (n := 100 * i / u) in *. set (r := (100 * i) mod u) in *.
  assert (Hn : 0 <= n <= 100).
  { split; [apply Z.div_pos; lia|].
    unfold n. apply Z.div_le_upper_bound; lia. }
  clearbody n r.
  set (v := (1 # Z.to_pos u)%Q).
  assert (Hv : (1 # 17592186044416 <= v)%Q).
  { unfold v, Qle; cbn [Qnum Qden]. rewrite Z2Pos.id by assumption.
    change (2 ^ 44) with 17592186044416 in Hbig. lia. }
  assert (Hlow : (inject_Z n <= q * 100)%Q).
  { unfold q, Qle, Qmult; cbn [Qnum Qden inject_Z].
    rewrite Pos.mul_1_r, Z2Pos.id by assumption. nia. }
  assert (Hupp : (q * 100 + v <= inject_Z n + 1)%Q).
  { unfold q, v, Qle, Qmult, Qplus; cbn [Qnum Qden inject_Z].
    rewrite ?Pos2Z.inj_mul, ?Z2Pos.id by assumption.
    assert (0 < u * u) by nia. nia. }
  assert (Hn100 : (inject_Z n <= 100)%Q).
  { change 100%Q with (inject_Z 100). rewrite <- Zle_Qle. lia. }
  assert (Hn0 : (0 <= inject_Z n)%Q).
  { change 0%Q with (inject_Z 0). rewrite <- Zle_Qle. lia. }
  set (P := inject_Z p) in *. set (N := inject_Z n) in *.
  assert (HPN : (P < N + 1)%Q) by (clearbody P N q x y v; lra).
  assert (HNP : (N - 2 < P)%Q) by (clearbody P N q x y v; lra).
  subst P N.
  change 1%Q with (inject_Z 1) in HPN. rewrite <- inject_Z_plus in HPN.
  change 2%Q with (inject_Z 2) in HNP.
  unfold Qminus in HNP. rewrite <- inject_Z_opp, <- inject_Z_plus in HNP.
  rewrite <- Zlt_Qlt in HPN, HNP. lia.
Qed.

End F64.

(** ** Python text operations *)

Local Open Scope string_scope.

(** The code point of a character. *)
Definition code (c : ascii) : nat := nat_of_ascii c.

Definition in_range (lo hi n : nat) : bool := Nat.leb lo n && Nat.leb n hi.

(** [str.isspace] on one character, which is what [str.strip] removes. *)
Definition isspace (c : ascii) : bool :=
  let n := code c in
  in_range 9 13 n || in_range 28 32 n || Nat.eqb n 133 || Nat.eqb n 160.

(** [str.lower] on one character. *)
Definition lower_char (c : ascii) : ascii :=
  let n := code c in
  if in_range 65 90 n || (in_range 192 222 n && negb (Nat.eqb n 215))
  then ascii_of_nat (n + 32) else c.

(** The characters matched by [\w] in a [str] pattern. *)
Definition is_word (c : ascii) : bool :=
  let n := code c in
  in_range 48 57 n || in_range 65 90 n || Nat.eqb n 95 || in_range 97 122 n
  || Nat.eqb n 170 || in_range 178 179 n || Nat.eqb n 181
  || in_range 185 186 n || in_range 188 190 n
  || in_range 192 214 n || in_range 216 246 n || in_range 248 255 n.

Fixpoint lower (s : string) : string :=
  match s with
  | "" => ""
  | String c t => String (lower_char c) (lower t)
  end.

Definition NL : ascii := ascii_of_nat 10.
Definition TAB : ascii := ascii_of_nat 9.
Definition CR : ascii := ascii_of_nat 13.
Definition SP : ascii := ascii_of_nat 32.

(** [CLEAN_TRANS = str.maketrans('', '', ' \n\t\r')]: a translation table
    that deletes these four characters and maps nothing. *)
Definition CLEAN_TRANS : list ascii := [SP; NL; TAB; CR].

Definition mem_char (c : ascii) (l : list ascii) : bool :=
  existsb (Ascii.eqb c) l.

(** [s.translate(table)] for a table that only deletes. *)
Fixpoint translate (table : list ascii) (s : string) : string :=
  match s with
  | "" => ""
  | String c t =>
      if mem_char c table then translate table t
      else String c (translate table t)
  end.

(** [s.replace(old, new)] for a one-character [old]. *)
Fixpoint replace (old : ascii) (new : string) (s : string) : string :=
  match s with
  | "" => ""
  | String c t =>
      if Ascii.eqb c old then new ++ replace old new t
      else String c (replace old new t)
  end.

(** [s[::-1]]. *)
Fixpoint reverse_onto (s acc : string) : string :=
  match s with
  | "" => acc
  | String c t => reverse_onto t (String c acc)
  end.

Definition reversed (s : string) : string := reverse_onto s "".

Fixpoint lstrip (s : string) : string :=
  match s with
  | "" => ""
  | String c t => if isspace c then lstrip t else s
  end.

Definition rstrip (s : string) : string := reversed (lstrip (reversed s)).

(** [s.strip()]. *)
Definition strip (s : string) : string := rstrip (lstrip s).

Definition len (s : string) : Z := Z.of_nat (String.length s).

(** Truth value of a string: non-empty. *)
Definition truthy (s : string) : bool :=
  match s with "" => false | _ => true end.

Fixpoint startswith (p s : string) : bool :=
  match p, s with
  | "", _ => true
  | String _ _, "" => false
  | String a p', String b s' => Ascii.eqb a b && startswith p' s'
  end.

(** [needle in hay]. *)
Fixpoint contains (needle hay : string) : bool :=
  startswith needle hay ||
  match hay with
  | "" => false
  | String _ t => contains needle t
  end.

(** [hay.find(needle)]: the least index of an occurrence, or [-1]. *)
Fixpoint find (hay needle : string) : Z :=
  if startswith needle hay then 0%Z
  else match hay with
       | "" => (-1)%Z
       | String _ t =>
           let r := find t needle in
           if (r =? -1)%Z then (-1)%Z else (r + 1)%Z
       end.

(** [s[lo:hi]] for non-negative bounds. *)
Definition slice (s : string) (lo hi : Z) : string :=
  substring (Z.to_nat lo) (Z.to_nat (hi - lo)) s.

(** [s[:n]]. *)
Definition take (n : nat) (s : string) : string := substring 0 n s.

(** ** What the engine takes from outside *)

(** A Python call either returns a value or raises. *)
Inductive outcome (A : Type) : Type :=
| Returns (a : A)
| Raises.

Arguments Returns {A} a.
Arguments Raises {A}.

(** [try: v = body  except: v = fallback]. *)
Definition try_except {A : Type} (body : outcome A) (fallback : A) : A :=
  match body with
  | Returns a => a
  | Raises => fallback
  end.

Definition bind {A B : Type} (m : outcome A) (k : A -> outcome B) : outcome B :=
  match m with
  | Returns a => k a
  | Raises => Raises
  end.

(** The libraries and the file system, as the engine calls them. *)
Record World : Type := {
  (** [os.path.splitext(p)[1]], [os.path.abspath], [os.path.join],
      [os.path.basename]. *)
  splitext_ext : string -> string;
  abspath : string -> string;
  join : string -> string -> string;
  basename : string -> string;
  (** [os.walk(folder)]: for each directory, its path and its file names. *)
  walk : string -> list (string * list string);
  (** [os.path.abspath(__file__)]. *)
  myself : string;
  (** [fitz.open(path)] and then [page.get_text()] of every page. *)
  fitz_pages : string -> outcome (list (outcome string));
  (** [HAS_DOCX], and the paragraph texts of [docx.Document(path)]. *)
  HAS_DOCX : bool;
  docx_paragraphs : string -> outcome (list string);
  (** [open(path, 'r', encoding='utf-8', errors='ignore').read()] and
      [open(path, 'rb').read().decode('utf-8', errors='ignore')]. *)
  read_text : string -> outcome string;
  read_bytes : string -> outcome string;
  (** [re.search(pattern, text)]: [match.group(0)] of the match, if any. *)
  re_search : string -> string -> outcome (option string);
  (** [SequenceMatcher(None, a, b).ratio()]. *)
  sequence_ratio : string -> string -> Q
}.

(** ** Configuration *)

Definition SUPPORTED_EXTS : list (string * list string) :=
  [ ("pdf", [".pdf"]);
    ("word", [".docx"; ".doc"]);
    ("text", [".txt"; ".py"; ".c"; ".cpp"; ".h"; ".java"; ".md"; ".json";
              ".xml"; ".csv"]) ].

(** [SUPPORTED_EXTS[kind]]. *)
Definition exts_of (kind : string) : list string :=
  match List.find (fun kv => String.eqb (fst kv) kind) SUPPORTED_EXTS with
  | Some kv => snd kv
  | None => []
  end.

Definition mem_string (s : string) (l : list string) : bool :=
  existsb (String.eqb s) l.

(** A value of a result tuple that is a string in one place and the
    integer [0] in another. *)
Inductive pyval : Type :=
| PStr (s : string)
| PNum (q : Q).

(** The tuples the two workers return; [res[0]] is the match flag. *)
Inductive job_result : Type :=
| KeywordResult (found : bool) (path : string) (loc : pyval) (snippet : string)
| SimilarityResult (found : bool) (path : string) (score : Q).

Definition res0 (r : job_result) : bool :=
  match r with
  | KeywordResult f _ _ _ => f
  | SimilarityResult f _ _ => f
  end.

(** [re.findall(r'\w+', s)]: the maximal runs of word characters.  [cur]
    holds the run being read, last character first. *)
Fixpoint findall_words (s cur : string) : list string :=
  match s with
  | "" => if truthy cur then [reversed cur] else []
  | String c t =>
      if is_word c then findall_words t (String c cur)
      else (if truthy cur then [reversed cur] else []) ++ findall_words t ""
  end.

Definition get_tokens (text : string) : gset string :=
  list_to_set
    (List.filter (fun w => Nat.ltb 3 (String.length w))
       (findall_words (lower text) "")).

Section Workers.

Variable w : World.

(** *** Text extraction *)

(** All pages' texts, or [Raises] as soon as one page does. *)
Fixpoint all_pages (ps : list (outcome string)) : outcome (list string) :=
  match ps with
  | [] => Returns []
  | p :: rest =>
      bind p (fun t => bind (all_pages rest) (fun ts => Returns (t :: ts)))
  end.

Definition join_lines (ls : list string) : string :=
  List.fold_right (fun l acc => l ++ String NL acc) "" ls.

Definition extract_text_from_file (path : string) : string :=
  let ext := lower (splitext_ext w path) in
  try_except
    (if mem_string ext (exts_of "pdf") then
       bind (fitz_pages w path) (fun ps =>
       bind (all_pages ps) (fun ts => Returns (join_lines ts)))
     else if mem_string ext (exts_of "word") && HAS_DOCX w then
       bind (docx_paragraphs w path) (fun ps => Returns (join_lines ps))
     else
       match read_text w path with
       | Returns t => Returns t
       | Raises => read_bytes w path
       end)
    "".

(** *** Keyword matching *)

(** The literal branch: [(found, match_term)]. *)
Definition literal_match (text_compressed query : string)
    (query_rev : option string) : bool * string :=
  if contains query text_compressed then (true, query)
  else match query_rev with
       | Some qr =>
           if truthy qr && contains qr text_compressed then (true, qr)
           else (false, "")
       | None => (false, "")
       end.

(** The regex branch, with its [try] and bare [except: pass]. *)
Definition regex_match (query text_lower : string) : bool * string :=
  try_except
    (bind (re_search w query text_lower) (fun m =>
       match m with
       | Some g => Returns (true, g)
       | None => Returns (false, "")
       end))
    (false, "").

(** The snippet of 40 characters on either side of [start]. *)
Definition window (raw_text text_lower : string) (start : Z) : string :=
  let s := Z.max 0 (start - 40) in
  let e := Z.min (len text_lower) (start + 40) in
  let snip := strip (replace NL " " (slice raw_text s e)) in
  "..." ++ snip ++ "...".

Definition _check_match (raw_text query : string) (query_rev : option string)
    (use_regex : bool) : outcome (bool * string) :=
  if negb (truthy raw_text) then Returns (false, "") else
  let text_lower := lower raw_text in
  let '(found, match_term) :=
    if use_regex then regex_match query text_lower
    else literal_match (translate CLEAN_TRANS text_lower) query query_rev in
  if found then
    let term := if truthy match_term then match_term else query in
    let start := find text_lower term in
    let start := if (start =? -1)%Z && negb use_regex then 0%Z else start in
    if negb (start =? -1)%Z then Returns (true, window raw_text text_lower start)
    else Returns (true, "Match found")
  else Returns (false, "").

(** A keyword task: [(path, query, query_rev, use_regex)]. *)
Definition keyword_task : Type := (string * string * option string * bool)%type.

Definition worker_search_file (task_data : keyword_task) : outcome job_result :=
  let '(path, query, query_rev, use_regex) := task_data in
  let full_text := extract_text_from_file path in
  bind (_check_match full_text query query_rev use_regex) (fun res =>
  if fst res then Returns (KeywordResult true path (PStr "Text") (snd res))
  else Returns (KeywordResult false path (PNum 0) "")).

(** *** Token similarity *)

(** A similarity task: [(target_path, ref_tokens)]. *)
Definition similarity_task : Type := (string * gset string)%type.

Definition jaccard_score (ref_tokens target_tokens : gset string) : Q :=
  let intersection := Z.of_nat (size (ref_tokens ∩ target_tokens)) in
  let union := Z.of_nat (size (ref_tokens ∪ target_tokens)) in
  if (0 <? union)%Z
  then F64.fmul (F64.fdiv (inject_Z intersection) (inject_Z union)) 100
  else 0.

Definition worker_similarity_scan (task_data : similarity_task)
    : outcome job_result :=
  let '(target_path, ref_tokens) := task_data in
  let target_text := extract_text_from_file target_path in
  if negb (truthy target_text) then
    Returns (SimilarityResult false target_path 0)
  else
    let target_tokens := get_tokens target_text in
    if bool_decide (target_tokens = ∅) then
      Returns (SimilarityResult false target_path 0)
    else
      let score := jaccard_score ref_tokens target_tokens in
      if F64.gtb score 5 then
        Returns (SimilarityResult true target_path (F64.round1 score))
      else Returns (SimilarityResult false target_path 0).

End Workers.

(** ** Deep inspection: chunks with page labels *)

(** [str(n)] for a natural number. *)
Definition str_of_nat (n : nat) : string :=
  NilEmpty.string_of_uint (Nat.to_uint n).

(** ["\n".join(ls)]. *)
Fixpoint join_newline (ls : list string) : string :=
  match ls with
  | [] => ""
  | [l] => l
  | l :: rest => l ++ String NL (join_newline rest)
  end.

(** [re.split(r'\n{2,}', s)]: the pieces between the maximal runs of two or
    more newlines.  [cur] is the piece being read, last character first,
    and [nls] the number of newlines just read and not yet placed. *)
Fixpoint split_blank_lines (s cur : string) (nls : nat) : list string :=
  match s with
  | "" =>
      match nls with
      | 0 => [reversed cur]
      | 1 => [reversed (String NL cur)]
      | _ => [reversed cur; ""]
      end
  | String c t =>
      if Ascii.eqb c NL then split_blank_lines t cur (S nls)
      else match nls with
           | 0 => split_blank_lines t (String c cur) 0
           | 1 => split_blank_lines t (String c (String NL cur)) 0
           | _ => reversed cur :: split_blank_lines t (String c "") 0
           end
  end.

(** The dictionaries [{'id': .., 'text': .., 'page': ..}]. *)
Record Chunk : Type := {
  chunk_id : string;
  chunk_text : string;
  chunk_page : string
}.

(** The dictionaries [compare_structure] returns. *)
Record ComparisonResult : Type := {
  ref_page : string;
  tgt_page : string;
  score : Q;
  preview : string
}.

(** One page's chunks, numbered from [next_id]; returns the next free id. *)
Fixpoint chunks_of_page (page_num : string) (pieces : list string)
    (next_id : nat) : list Chunk * nat :=
  match pieces with
  | [] => ([], next_id)
  | chunk :: rest =>
      let cleaned_chunk := strip chunk in
      if Nat.ltb 10 (String.length cleaned_chunk) then
        let '(items, n) := chunks_of_page page_num rest (S next_id) in
        ({| chunk_id := str_of_nat next_id;
            chunk_text := cleaned_chunk;
            chunk_page := page_num |} :: items, n)
      else chunks_of_page page_num rest next_id
  end.

Fixpoint parse_pages (pages_data : list (string * string)) (next_id : nat)
    : list Chunk :=
  match pages_data with
  | [] => []
  | (page_num, page_text) :: rest =>
      let chunks := split_blank_lines (strip page_text) "" 0 in
      let '(items, n) := chunks_of_page page_num chunks next_id in
      items ++ parse_pages rest n
  end.

(** [results.sort(key=lambda x: x['score'], reverse=True)]: a stable sort
    by descending score. *)
Fixpoint insert_desc (x : ComparisonResult) (l : list ComparisonResult)
    : list ComparisonResult :=
  match l with
  | [] => [x]
  | y :: rest =>
      if F64.gtb (score y) (score x) then y :: insert_desc x rest
      else x :: l
  end.

Definition sort_desc (l : list ComparisonResult) : list ComparisonResult :=
  List.fold_right insert_desc [] l.

Section DeepInspector.

Variable w : World.

(** The pages read before the first one that raises, labelled from
    [str(i + 1)]. *)
Fixpoint pages_until_raise (ps : list (outcome string)) (i : nat)
    : list (string * string) :=
  match ps with
  | Returns t :: rest => (str_of_nat (i + 1), t) :: pages_until_raise rest (S i)
  | _ => []
  end.

Definition extract_pages (path : string) : list (string * string) :=
  let ext := lower (splitext_ext w path) in
  if mem_string ext (exts_of "pdf") then
    match fitz_pages w path with
    | Returns ps => pages_until_raise ps 0
    | Raises => []
    end
  else if mem_string ext (exts_of "word") && HAS_DOCX w then
    match docx_paragraphs w path with
    | Returns ps => [("1", join_newline ps)]
    | Raises => []
    end
  else
    match read_text w path with
    | Returns t => [("1", t)]
    | Raises => []
    end.

Definition parse_text_chunks_with_location (path : string) : list Chunk :=
  parse_pages (extract_pages path) 1.

(** The similarity of two chunks, in percent. *)
Definition chunk_ratio (ref_item tgt_item : Chunk) : Q :=
  let ref_text_clean := translate CLEAN_TRANS (lower (chunk_text ref_item)) in
  let tgt_text_clean := translate CLEAN_TRANS (lower (chunk_text tgt_item)) in
  F64.fmul (sequence_ratio w ref_text_clean tgt_text_clean) 100.

(** The inner loop: [(best_score, best_match_page)] after the targets. *)
Fixpoint best_match (ref_item : Chunk) (tgt_data : list Chunk)
    (best_score : Q) (best_match_page : string) : Q * string :=
  match tgt_data with
  | [] => (best_score, best_match_page)
  | tgt_item :: rest =>
      if Nat.ltb (String.length (chunk_text tgt_item)) 50 then
        best_match ref_item rest best_score best_match_page
      else
        let ratio := chunk_ratio ref_item tgt_item in
        if F64.gtb ratio best_score then
          best_match ref_item rest ratio (chunk_page tgt_item)
        else best_match ref_item rest best_score best_match_page
  end.

Definition make_preview (text : string) : string :=
  replace NL " " (take 100 text) ++ "...".

(** The outer loop: the results in the order they are appended. *)
Fixpoint compare_chunks (ref_data tgt_data : list Chunk)
    : list ComparisonResult :=
  match ref_data with
  | [] => []
  | ref_item :: rest =>
      if Nat.ltb (String.length (chunk_text ref_item)) 50 then
        compare_chunks rest tgt_data
      else
        let '(best_score, best_match_page) :=
          best_match ref_item tgt_data 0 "-" in
        if F64.gtb best_score 15 then
          {| ref_page := chunk_page ref_item;
             tgt_page := best_match_page;
             score := F64.round1 best_score;
             preview := make_preview (chunk_text ref_item) |}
          :: compare_chunks rest tgt_data
        else compare_chunks rest tgt_data
  end.

Definition compare_structure (ref_path target_path : string)
    : list ComparisonResult :=
  let ref_data := parse_text_chunks_with_location ref_path in
  let tgt_data := parse_text_chunks_with_location target_path in
  sort_desc (compare_chunks ref_data tgt_data).

End DeepInspector.

(** ** The scan orchestrator *)

(** The optional callbacks of [cbs]: which keys are present. *)
Record Callbacks : Type := {
  has_on_match : bool;
  has_on_prog : bool;
  has_on_done : bool
}.

(** A callback invocation, with its arguments. *)
Inductive event : Type :=
| OnMatch (res : job_result)
| OnProg (percent : Z) (name : string)
| OnDone (matches : nat).

(** What the pool and the other threads decide: the order in which the
    submitted jobs complete (positions in the task list), and the value of
    [self.stop_flag] read at the top of each iteration of the loop. *)
Record Schedule : Type := {
  completion_order : list nat;
  flag_at : nat -> bool
}.

Record SearchLogic : Type := { stop_flag : bool }.

Definition SearchLogic_init : SearchLogic := {| stop_flag := false |}.

Definition stop (self : SearchLogic) : SearchLogic := {| stop_flag := true |}.

(** [int(count / total * 100)]. *)
Definition percent (count total : nat) : Z :=
  F64.int (F64.fmul (F64.fdiv (inject_Z (Z.of_nat count))
                              (inject_Z (Z.of_nat total))) 100).

Definition is_on_match (e : event) : bool :=
  match e with OnMatch _ => true | _ => false end.

Definition is_on_prog (e : event) : bool :=
  match e with OnProg _ _ => true | _ => false end.

Definition is_on_done (e : event) : bool :=
  match e with OnDone _ => true | _ => false end.

Section SearchLogic.

Variable w : World.

Definition valid_exts : list string := List.flat_map snd SUPPORTED_EXTS.

Definition get_files_in (r : string) (fs : list string) : list string :=
  List.flat_map (fun f =>
    let full := join w r f in
    if String.eqb (abspath w full) (myself w) then []
    else if mem_string (lower (splitext_ext w f)) valid_exts then [full]
    else []) fs.

Definition get_files (folder : string) : list string :=
  List.flat_map (fun d => get_files_in (fst d) (snd d)) (walk w folder).

Section Pool.

Context {T : Type}.
Variable worker : T -> outcome job_result.
Variable path_of : T -> string.
Variable cbs : Callbacks.
Variable total : nat.
Variable flags : nat -> bool.

(** The events of one completed job: the match callback, then the progress
    callback. [count] is the counter after its increment. *)
Definition job_matched (t : T) : bool :=
  match worker t with
  | Returns res => res0 res
  | Raises => false
  end.

Definition match_events (t : T) : list event :=
  match worker t with
  | Returns res =>
      if res0 res && has_on_match cbs then [OnMatch res] else []
  | Raises => []
  end.

Definition prog_due (count : nat) : bool :=
  Nat.eqb (count mod 5) 0 || Nat.eqb count total.

Definition prog_events (t : T) (count : nat) : list event :=
  if has_on_prog cbs && prog_due count
  then [OnProg (percent count total) (basename w (path_of t))]
  else [].

(** The loop over [as_completed(fs)]: [i] is the iteration, [count] and
    [matches] the counters before it.  Returns the final [matches] and the
    callbacks invoked, in order. *)
Fixpoint pool_loop (completed : list T) (i count matches : nat)
    : nat * list event :=
  match completed with
  | [] => (matches, [])
  | t :: rest =>
      if flags i then (matches, [])
      else
        let count := S count in
        let matches := if job_matched t then S matches else matches in
        let '(m, evs) := pool_loop rest (S i) count matches in
        (m, (match_events t ++ prog_events t count ++ evs)%list)
  end.

End Pool.

(** The tasks in the order in which their jobs complete. *)
Definition in_completion_order {T : Type} (tasks : list T) (order : list nat)
    : list T :=
  omap (fun i => tasks !! i) order.

Definition _run_pool {T : Type} (worker : T -> outcome job_result)
    (path_of : T -> string) (tasks : list T) (cbs : Callbacks)
    (sched : Schedule) : list event :=
  let total := length tasks in
  let '(matches, evs) :=
    pool_loop worker path_of cbs total (flag_at sched)
      (in_completion_order tasks (completion_order sched)) 0 0 0 in
  (evs ++ (if has_on_done cbs then [OnDone matches] else []))%list.

(** The normalised query and its reversal, as [run_keyword_search] builds
    them. *)
Definition normalize_query (query : string) (regex : bool) : string :=
  if regex then query else replace TAB "" (replace SP "" (lower query)).

Definition keyword_tasks (files : list string) (query : string) (regex : bool)
    : list keyword_task :=
  let q_c := normalize_query query regex in
  let q_r := if regex then None else Some (reversed q_c) in
  List.map (fun f => (f, q_c, q_r, regex)) files.

Definition run_keyword_search (files : list string) (query : string)
    (regex : bool) (cbs : Callbacks) (sched : Schedule) : list event :=
  _run_pool (worker_search_file w) (fun t => fst (fst (fst t)))
    (keyword_tasks files query regex) cbs sched.

Definition similarity_tasks (files : list string) (ref_file : string)
    (ref_tokens : gset string) : list similarity_task :=
  let ref_abs := abspath w ref_file in
  List.map (fun f => (f, ref_tokens))
    (List.filter (fun f => negb (String.eqb (abspath w f) ref_abs)) files).

Definition run_similarity_search (files : list string) (ref_file : string)
    (cbs : Callbacks) (sched : Schedule) : list event :=
  let ref_text := extract_text_from_file w ref_file in
  let ref_tokens := get_tokens ref_text in
  if bool_decide (ref_tokens = ∅) then []
  else _run_pool (worker_similarity_scan w) fst
         (similarity_tasks files ref_file ref_tokens) cbs sched.

End SearchLogic.

(** ** [difflib.SequenceMatcher(None, a, b).ratio()]

    The standard library's matcher with no junk function and the automatic
    junk heuristic on, as [compare_structure] constructs it. *)

Module Difflib.

Definition chars (s : string) : list ascii := list_ascii_of_string s.

Definition at_index (l : list ascii) (i : nat) : ascii := nth i l Ascii.zero.

(** The indices of [c] in [b], increasing, counted from [j]. *)
Fixpoint positions_from (c : ascii) (b : list ascii) (j : nat) : list nat :=
  match b with
  | [] => []
  | x :: rest =>
      if Ascii.eqb x c then j :: positions_from c rest (S j)
      else positions_from c rest (S j)
  end.

(** An element is popular when [b] has at least 200 elements and it occurs
    more than [len(b) // 100 + 1] times. *)
Definition popular (b : list ascii) (c : ascii) : bool :=
  let n := length b in
  Nat.leb 200 n && Nat.ltb (n / 100 + 1) (length (positions_from c b 0)).

(** [b2j[c]] after the purge of the popular elements ([b2j.get(c, [])]). *)
Definition b2j (b : list ascii) (c : ascii) : list nat :=
  if popular b c then [] else positions_from c b 0.

(** [j2len.get(j - 1, 0)]. *)
Definition j2len_get (j2len : gmap nat nat) (j : nat) : nat :=
  match j with
  | 0 => 0
  | S j' => default 0 (j2len !! j')
  end.

(** The loop over [j] for one [i]. *)
Fixpoint scan_row (js : list nat) (blo bhi i : nat)
    (j2len newj2len : gmap nat nat) (best : nat * nat * nat)
    : gmap nat nat * (nat * nat * nat) :=
  match js with
  | [] => (newj2len, best)
  | j :: rest =>
      if Nat.ltb j blo then scan_row rest blo bhi i j2len newj2len best
      else if Nat.leb bhi j then (newj2len, best)
      else
        let k := j2len_get j2len j + 1 in
        let best' :=
          if Nat.ltb (snd best) k then (i + 1 - k, j + 1 - k, k) else best in
        scan_row rest blo bhi i j2len (<[j := k]> newj2len) best'
  end.

(** The loop over [i] in [range(alo, ahi)]; [rows] lists those [i]. *)
Fixpoint scan_rows (a b : list ascii) (rows : list nat) (blo bhi : nat)
    (j2len : gmap nat nat) (best : nat * nat * nat) : nat * nat * nat :=
  match rows with
  | [] => best
  | i :: rest =>
      let '(newj2len, best') :=
        scan_row (b2j b (at_index a i)) blo bhi i j2len ∅ best in
      scan_rows a b rest blo bhi newj2len best'
  end.

(** The first extension loop, towards the start. *)
Fixpoint extend_back (a b : list ascii) (alo blo besti bestj bestsize : nat)
    : nat * nat * nat :=
  match besti with
  | 0 => (besti, bestj, bestsize)
  | S i' =>
      if Nat.ltb alo besti && Nat.ltb blo bestj
         && Ascii.eqb (at_index a i') (at_index b (bestj - 1))
      then extend_back a b alo blo i' (bestj - 1) (S bestsize)
      else (besti, bestj, bestsize)
  end.

(** The second extension loop, towards the end; [gap] counts the elements
    of [a] left after the block. *)
Fixpoint extend_forward (a b : list ascii) (bhi besti bestj bestsize gap : nat)
    : nat * nat * nat :=
  match gap with
  | 0 => (besti, bestj, bestsize)
  | S g =>
      if Nat.ltb (bestj + bestsize) bhi
         && Ascii.eqb (at_index a (besti + bestsize))
                      (at_index b (bestj + bestsize))
      then extend_forward a b bhi besti bestj (S bestsize) g
      else (besti, bestj, bestsize)
  end.

(** [find_longest_match(alo, ahi, blo, bhi)].  The two loops that extend a
    block by junk elements never run: the junk set is empty. *)
Definition find_longest_match (a b : list ascii) (alo ahi blo bhi : nat)
    : nat * nat * nat :=
  let '(i0, j0, k0) :=
    scan_rows a b (seq alo (ahi - alo)) blo bhi ∅ (alo, blo, 0) in
  let '(i1, j1, k1) := extend_back a b alo blo i0 j0 k0 in
  extend_forward a b bhi i1 j1 k1 (ahi - (i1 + k1)).

(** The total size of the blocks [get_matching_blocks] finds in a window:
    the longest block, then the windows on its left and on its right.
    [depth] bounds the nesting; a window nests at most as deep as the
    smaller of its two sides is long. *)
Fixpoint matched (a b : list ascii) (depth alo ahi blo bhi : nat) : nat :=
  match depth with
  | 0 => 0
  | S d =>
      let '(i, j, k) := find_longest_match a b alo ahi blo bhi in
      if Nat.eqb k 0 then 0
      else
        k
        + (if Nat.ltb alo i && Nat.ltb blo j
           then matched a b d alo i blo j else 0)
        + (if Nat.ltb (i + k) ahi && Nat.ltb (j + k) bhi
           then matched a b d (i + k) ahi (j + k) bhi else 0)
  end.

Definition matches (a b : list ascii) : nat :=
  matched a b (S (Nat.min (length a) (length b))) 0 (length a) 0 (length b).

(** [ratio()]: [2.0 * matches / length], or [1.0] for two empty sequences. *)
Definition ratio (x y : string) : Q :=
  let a := chars x in
  let b := chars y in
  let total := length a + length b in
  if Nat.eqb total 0 then 1
  else F64.fdiv (F64.fmul 2 (inject_Z (Z.of_nat (matches a b))))
                (inject_Z (Z.of_nat total)).

End Difflib.

(** ** A small archive to evaluate the engine on *)

Module Example.

(** The last component of a [/]-separated path; [cur] is that component so
    far, last character first. *)
Fixpoint last_component (p cur : string) : string :=
  match p with
  | "" => reversed cur
  | String c t =>
      if Ascii.eqb c "/" then last_component t ""
      else last_component t (String c cur)
  end.

Definition posix_basename (p : string) : string := last_component p "".

(** The extension of a reversed file name: the text from its last dot, when
    a character other than a dot comes before it. *)
Fixpoint ext_of_reversed (r ext : string) : string :=
  match r with
  | "" => ""
  | String c t =>
      if Ascii.eqb c "."
      then if truthy (translate ["."%char] t) then String c ext else ""
      else ext_of_reversed t (String c ext)
  end.

Definition posix_splitext_ext (p : string) : string :=
  ext_of_reversed (reversed (posix_basename p)) "".

Definition posix_abspath (p : string) : string :=
  if startswith "/" p then p else "/home/" ++ p.

Definition posix_join (r f : string) : string := r ++ "/" ++ f.

Definition archive_walk (folder : string) : list (string * list string) :=
  if String.eqb folder "/archive" then
    [ ("/archive", ["a.txt"; "b.txt"; "empty.txt"; "ab.txt"; "main.py";
                    "picture.png"; "REPORT.PDF"]);
      ("/archive/sub", ["c.TXT"; ".hidden"]) ]
  else [].

Definition line_break : string := String NL "".

Definition paragraph_one : string :=
  "The committee met on Monday to review the annual budget in detail.".

Definition paragraph_two : string :=
  "A second, unrelated paragraph about the weather and upcoming holidays.".

Definition archive_read_text (path : string) : outcome string :=
  if String.eqb path "/archive/a.txt" then Returns "hello world"
  else if String.eqb path "/archive/b.txt" then Returns "goodbye"
  else if String.eqb path "/archive/empty.txt" then Returns ""
  else if String.eqb path "/archive/ab.txt" then Returns "ab"
  else if String.eqb path "/archive/sub/c.TXT" then
    Returns "alpha beta gamma delta"
  else if String.eqb path "/archive/target.txt" then
    Returns "alpha beta epsilon"
  else Raises.

Definition archive_fitz_pages (path : string) : outcome (list (outcome string)) :=
  if String.eqb path "/archive/REPORT.PDF" then
    Returns [ Returns (paragraph_one ++ line_break ++ line_break
                       ++ paragraph_two);
              Returns paragraph_one ]
  else Raises.

(** A stand-in for [re.search] on patterns without metacharacters: the
    pattern matches itself; an unbalanced parenthesis does not compile. *)
Definition literal_re_search (pattern text : string) : outcome (option string) :=
  if String.eqb pattern "(" then Raises
  else if contains pattern text then Returns (Some pattern)
  else Returns None.

Definition world : World := {|
  splitext_ext := posix_splitext_ext;
  abspath := posix_abspath;
  join := posix_join;
  basename := posix_basename;
  walk := archive_walk;
  myself := "/archive/main.py";
  fitz_pages := archive_fitz_pages;
  HAS_DOCX := false;
  docx_paragraphs := fun _ => Raises;
  read_text := archive_read_text;
  read_bytes := fun _ => Raises;
  re_search := literal_re_search;
  sequence_ratio := Difflib.ratio
|}.

Definition all_callbacks : Callbacks :=
  {| has_on_match := true; has_on_prog := true; has_on_done := true |}.

(** Jobs complete in submission order and nobody calls [stop]. *)
Definition in_order (n : nat) : Schedule :=
  {| completion_order := seq 0 n; flag_at := fun _ => false |}.

Definition keyword_path (t : keyword_task) : string := fst (fst (fst t)).

Definition archive_tasks : list keyword_task :=
  keyword_tasks (get_files world "/archive") "hello" false.

(** Three jobs complete in submission order; the third finds the stop flag
    set. *)
Definition stop_after_two : Schedule :=
  {| completion_order := [0; 1; 2]%nat; flag_at := fun i => Nat.leb 2 i |}.

Definition alpha_tasks : list keyword_task :=
  keyword_tasks ["/archive/sub/c.TXT"; "/archive/a.txt"; "/archive/target.txt"]
    "alpha" false.

End Example.

(** * Properties *)

(** ** Keyword matching *)

Fixpoint has_char (c : ascii) (s : string) : bool :=
  match s with
  | "" => false
  | String x t => Ascii.eqb x c || has_char c t
  end.

Lemma lower_char_keeps_breaks c :
  (Ascii.eqb (lower_char c) NL = Ascii.eqb c NL)
  /\ (Ascii.eqb (lower_char c) CR = Ascii.eqb c CR).
Proof.
  destruct c as [[] [] [] [] [] [] [] []]; split; vm_compute; reflexivity.
Qed.

(** Without line breaks in it, a query is normalised as the text is. *)
Lemma normalize_query_translate query :
  has_char NL query = false -> has_char CR query = false ->
  normalize_query query false = translate CLEAN_TRANS (lower query).
Proof.
  unfold normalize_query.
  induction query as [|c t IH]; intros Hn Hc; [reflexivity|].
  cbn [has_char] in Hn, Hc.
  apply orb_false_elim in Hn as [Hn1 Hn2].
  apply orb_false_elim in Hc as [Hc1 Hc2].
  specialize (IH Hn2 Hc2).
  destruct (lower_char_keeps_breaks c) as [En Ec].
  rewrite Hn1 in En. rewrite Hc1 in Ec.
  cbn [lower translate replace CLEAN_TRANS mem_char existsb].
  rewrite En, Ec.
  destruct (Ascii.eqb (lower_char c) SP) eqn:Es.
  - cbn [orb]. cbn [append]. exact IH.
  - cbn [replace]. destruct (Ascii.eqb (lower_char c) TAB) eqn:Et.
    + cbn [orb append]. exact IH.
    + cbn [orb]. f_equal. exact IH.
Qed.

Lemma check_match_literal_found (w : World) raw query qrev :
  truthy raw = true ->
  contains query (translate CLEAN_TRANS (lower raw)) = true ->
  exists snippet, _check_match w raw query qrev false = Returns (true, snippet).
Proof.
  intros Ht Hc. unfold _check_match. rewrite Ht. cbn [negb].
  unfold literal_match. rewrite Hc. cbv beta iota zeta.
  match goal with
  | |- context [(?a =? -1)%Z] => destruct (a =? -1)%Z
  end; cbn; eauto.
Qed.

(** C1 as stated fails on a file without text: the empty normalised query
    is a substring of its empty compressed text, and the guard on empty text
    reports no match. *)
Lemma empty_text_never_matches :
  contains (translate CLEAN_TRANS (lower " "))
    (translate CLEAN_TRANS
       (lower (extract_text_from_file Example.world "/archive/empty.txt")))
  = true
  /\ In ("/archive/empty.txt", normalize_query " " false,
         Some (reversed (normalize_query " " false)), false)
       (keyword_tasks ["/archive/empty.txt"] " " false)
  /\ worker_search_file Example.world
       ("/archive/empty.txt", normalize_query " " false,
        Some (reversed (normalize_query " " false)), false)
     = Returns (KeywordResult false "/archive/empty.txt" (PNum 0) "").
Proof. vm_compute. intuition. Qed.

(** A query with a line break in it keeps the break when it is normalised,
    while the text loses its breaks: the file [ab.txt], whose text is [ab],
    is not matched by the query [a], newline, [b]. *)
Lemma line_break_query_not_matched :
  contains (translate CLEAN_TRANS (lower (String "a" (String NL "b"))))
    (translate CLEAN_TRANS
       (lower (extract_text_from_file Example.world "/archive/ab.txt")))
  = true
  /\ worker_search_file Example.world
       ("/archive/ab.txt", normalize_query (String "a" (String NL "b")) false,
        Some (reversed (normalize_query (String "a" (String NL "b")) false)),
        false)
     = Returns (KeywordResult false "/archive/ab.txt" (PNum 0) "").
Proof. vm_compute. intuition. Qed.

(** C1, amended: a literal query without newline or carriage return is
    reported on every file of the search whose extracted text is not empty
    and, compressed and lower-cased, contains the compressed lower-cased
    query.  The job built for the file returns [found = True] with location
    ["Text"]. *)
Theorem literal_query_reported (w : World) (files : list string)
    (query f : string) :
  In f files ->
  has_char NL query = false ->
  has_char CR query = false ->
  truthy (extract_text_from_file w f) = true ->
  contains (translate CLEAN_TRANS (lower query))
    (translate CLEAN_TRANS (lower (extract_text_from_file w f))) = true ->
  exists task snippet,
    In task (keyword_tasks files query false)
    /\ worker_search_file w task
       = Returns (KeywordResult true f (PStr "Text") snippet).
Proof.
  intros Hin Hn Hc Ht Hsub.
  rewrite <- (normalize_query_translate query Hn Hc) in Hsub.
  destruct (check_match_literal_found w _ _
              (Some (reversed (normalize_query query false))) Ht Hsub)
    as [snippet Hs].
  exists (f, normalize_query query false,
          Some (reversed (normalize_query query false)), false), snippet.
  split.
  - unfold keyword_tasks. apply in_map_iff. exists f. split; [reflexivity|assumption].
  - unfold worker_search_file. rewrite Hs. reflexivity.
Qed.

Lemma literal_query_reported_witness :
  exists task snippet,
    In task (keyword_tasks ["/archive/a.txt"; "/archive/b.txt"] "Hello W" false)
    /\ worker_search_file Example.world task
       = Returns (KeywordResult true "/archive/a.txt" (PStr "Text") snippet).
Proof.
  apply (literal_query_reported Example.world
           ["/archive/a.txt"; "/archive/b.txt"] "Hello W" "/archive/a.txt").
  - left; reflexivity.
  - reflexivity.
  - reflexivity.
  - reflexivity.
  - vm_compute; reflexivity.
Defined.

(** C2 as stated fails: for the text [a b] and the query [ab] the term is
    found in the compressed text only, and the snippet is the window at
    offset 0, not the generic message. *)
Lemma unlocated_term_gets_window :
  literal_match (translate CLEAN_TRANS (lower "a b")) "ab" (Some "ba")
    = (true, "ab")
  /\ find (lower "a b") "ab" = (-1)%Z
  /\ _check_match Example.world "a b" "ab" (Some "ba") false
     = Returns (true, "...a b...").
Proof. vm_compute. intuition. Qed.

Lemma window_not_generic raw text_lower start :
  window raw text_lower start <> "Match found".
Proof. unfold window. cbn. discriminate. Qed.

(** C2, amended: in literal mode, when the compressed-text test succeeds
    and the matched term does not occur in the lower-cased original text,
    [_check_match] returns [found = True] with the window taken at offset
    0 of the text (its first 40 characters, newlines replaced by spaces,
    stripped, between ellipses); it never returns the generic
    ["Match found"] message there. *)
Theorem literal_unlocated_term_window (w : World) (raw query : string)
    (qrev : option string) (match_term : string) :
  truthy raw = true ->
  literal_match (translate CLEAN_TRANS (lower raw)) query qrev
    = (true, match_term) ->
  find (lower raw) (if truthy match_term then match_term else query)
    = (-1)%Z ->
  _check_match w raw query qrev false
    = Returns (true, window raw (lower raw) 0)
  /\ window raw (lower raw) 0
     = "..." ++ strip (replace NL " "
                         (slice raw 0 (Z.min (len (lower raw)) 40))) ++ "..."
  /\ window raw (lower raw) 0 <> "Match found".
Proof.
  intros Ht Hm Hf. split; [|split].
  - unfold _check_match. rewrite Ht. cbn [negb]. rewrite Hm, Hf. reflexivity.
  - reflexivity.
  - apply window_not_generic.
Qed.

Lemma literal_unlocated_term_window_witness :
  _check_match Example.world "a b" "ab" (Some "ba") false
    = Returns (true, window "a b" (lower "a b") 0)
  /\ window "a b" (lower "a b") 0
     = "..." ++ strip (replace NL " "
                         (slice "a b" 0 (Z.min (len (lower "a b")) 40))) ++ "..."
  /\ window "a b" (lower "a b") 0 <> "Match found".
Proof.
  apply (literal_unlocated_term_window Example.world "a b" "ab" (Some "ba") "ab").
  - reflexivity.
  - reflexivity.
  - reflexivity.
Defined.

(** [_check_match] returns on every input: nothing it calls outside the
    [try] block raises. *)
Lemma check_match_returns (w : World) raw query qrev use_regex :
  exists res, _check_match w raw query qrev use_regex = Returns res.
Proof.
  unfold _check_match. destruct (negb (truthy raw)); [eauto|].
  destruct (if use_regex then _ else _) as [[] mt]; [|eauto].
  destruct (negb _); eauto.
Qed.

(** C6: when [re.search] raises on a regex query (an invalid pattern, or
    any error while matching), [_check_match] returns [(False, "")]; the
    job of that file returns a non-match, so that the pool counts no match
    and calls no match callback for it. *)
Theorem regex_error_is_no_match (w : World) (cbs : Callbacks)
    (path query : string) (qrev : option string) :
  re_search w query (lower (extract_text_from_file w path)) = Raises ->
  _check_match w (extract_text_from_file w path) query qrev true
    = Returns (false, "")
  /\ worker_search_file w (path, query, qrev, true)
     = Returns (KeywordResult false path (PNum 0) "")
  /\ job_matched (worker_search_file w) (path, query, qrev, true) = false
  /\ match_events (worker_search_file w) cbs (path, query, qrev, true) = [].
Proof.
  intros Hr.
  assert (E : _check_match w (extract_text_from_file w path) query qrev true
              = Returns (false, "")).
  { unfold _check_match. destruct (negb (truthy _)); [reflexivity|].
    unfold regex_match. rewrite Hr. reflexivity. }
  assert (E2 : worker_search_file w (path, query, qrev, true)
               = Returns (KeywordResult false path (PNum 0) "")).
  { unfold worker_search_file. rewrite E. reflexivity. }
  repeat split; try assumption.
  - unfold job_matched. rewrite E2. reflexivity.
  - unfold match_events. rewrite E2. reflexivity.
Qed.

Lemma regex_error_is_no_match_witness :
  _check_match Example.world
      (extract_text_from_file Example.world "/archive/a.txt") "(" None true
    = Returns (false, "")
  /\ worker_search_file Example.world ("/archive/a.txt", "(", None, true)
     = Returns (KeywordResult false "/archive/a.txt" (PNum 0) "")
  /\ job_matched (worker_search_file Example.world)
       ("/archive/a.txt", "(", None, true) = false
  /\ match_events (worker_search_file Example.world) Example.all_callbacks
       ("/archive/a.txt", "(", None, true) = [].
Proof.
  apply (regex_error_is_no_match Example.world Example.all_callbacks
           "/archive/a.txt" "(" None).
  reflexivity.
Defined.

(** ** Token similarity *)

(** The least double whose product with 100 rounds above 5: the successor
    of the double nearest to 1/20. *)
Definition above_one_twentieth : Q := 7205759403792795 # 144115188075855872.

Lemma size_inter_le_union (X Y : gset string) :
  (size (X ∩ Y) <= size (X ∪ Y))%nat.
Proof. apply subseteq_size. set_solver. Qed.

Lemma size_union_pos (X Y : gset string) : Y <> ∅ -> (0 < size (X ∪ Y))%nat.
Proof.
  intros HY. destruct (size (X ∪ Y)) eqn:E; [|lia].
  apply size_empty_inv in E. exfalso. apply HY.
  apply leibniz_equiv. set_solver.
Qed.

(** The float test [score > 5.0] decides the exact test
    [intersection / union * 100 > 5]. *)
Lemma percent_score_gt5 (i u : Z) :
  (0 <= i <= u)%Z -> (0 < u < 2 ^ 52)%Z ->
  F64.gtb (F64.fmul (F64.fdiv (inject_Z i) (inject_Z u)) 100) 5 = true
  <-> (u < 20 * i)%Z.
Proof.
  intros Hi Hu.
  pose proof (F64.fdiv_nonneg i u ltac:(lia) ltac:(lia)) as Hnn.
  pose proof (F64.fdiv_le_one i u ltac:(lia) ltac:(lia) ltac:(lia)) as Hle1.
  split.
  - intros Hgt. apply F64.gtb_true in Hgt.
    destruct (Z_lt_le_dec u (20 * i)) as [|Hsmall]; [assumption|exfalso].
    assert (Hq : (F64.fdiv (inject_Z i) (inject_Z u) <= F64.fl (1 # 20))%Q).
    { rewrite F64.fdiv_Z by lia. apply F64.fl_mono.
      - unfold Qle; cbn. lia.
      - unfold Qle; cbn [Qnum Qden]. rewrite Z2Pos.id by lia. lia.
      - reflexivity. }
    assert (Hm : (F64.fmul (F64.fdiv (inject_Z i) (inject_Z u)) 100
                  <= F64.fmul (F64.fl (1 # 20)) 100)%Q).
    { apply F64.fmul100_mono; try assumption. vm_compute. discriminate. }
    assert (E : F64.fmul (F64.fl (1 # 20)) 100 = 5%Q) by (vm_compute; reflexivity).
    rewrite E in Hm. eapply Qlt_not_le; eassumption.
  - intros Hbig. apply F64.gtb_true.
    assert (Hq : (F64.fl above_one_twentieth
                  <= F64.fdiv (inject_Z i) (inject_Z u))%Q).
    { rewrite F64.fdiv_Z by lia. apply F64.fl_mono.
      - vm_compute. discriminate.
      - unfold Qle, above_one_twentieth; cbn [Qnum Qden].
        rewrite Z2Pos.id by lia.
        assert (u * 28 <= 2 ^ 57)%Z.
        { assert (2 ^ 57 = 32 * 2 ^ 52)%Z by reflexivity. lia. }
        assert (2 ^ 57 = 144115188075855872)%Z by reflexivity. lia.
      - unfold Qlt; cbn [Qnum Qden inject_Z]. rewrite Z2Pos.id by lia.
        assert (1 < 2 ^ 53)%Z by reflexivity. nia. }
    assert (Hm : (F64.fmul (F64.fl above_one_twentieth) 100
                  <= F64.fmul (F64.fdiv (inject_Z i) (inject_Z u)) 100)%Q).
    { apply F64.fmul100_mono; try assumption. vm_compute. discriminate. }
    eapply Qlt_le_trans; [|exact Hm]. vm_compute. reflexivity.
Qed.

Lemma get_tokens_empty : get_tokens "" = ∅.
Proof. reflexivity. Qed.

(** C3: a similarity job over a target without text or without tokens
    returns a non-match.  Otherwise the union is not empty, the score is
    [intersection / union * 100] in float arithmetic, the job is positive
    exactly when this score exceeds 5.0 (which, below [2 ^ 52] tokens, is
    exactly when [20 * intersection > union]), and a positive job reports
    the score rounded to one decimal.  For the reference tokens
    {alpha, beta, gamma, delta} and the target tokens
    {alpha, beta, epsilon} the job reports 40.0. *)
Theorem similarity_job_score (w : World) (path : string)
    (ref_tokens : gset string) :
  let text := extract_text_from_file w path in
  let target_tokens := get_tokens text in
  let intersection := Z.of_nat (size (ref_tokens ∩ target_tokens)) in
  let union := Z.of_nat (size (ref_tokens ∪ target_tokens)) in
  let unrounded :=
    F64.fmul (F64.fdiv (inject_Z intersection) (inject_Z union)) 100 in
  (truthy text = false \/ target_tokens = ∅ ->
     worker_similarity_scan w (path, ref_tokens)
     = Returns (SimilarityResult false path 0))
  /\ (target_tokens <> ∅ ->
      worker_similarity_scan w (path, ref_tokens)
      = if F64.gtb unrounded 5
        then Returns (SimilarityResult true path (F64.round1 unrounded))
        else Returns (SimilarityResult false path 0))
  /\ (target_tokens <> ∅ -> (union < 2 ^ 52)%Z ->
      (F64.gtb unrounded 5 = true <-> (union < 20 * intersection)%Z))
  /\ (ref_tokens = {["alpha"; "beta"; "gamma"; "delta"]} ->
      target_tokens = {["alpha"; "beta"; "epsilon"]} ->
      worker_similarity_scan w (path, ref_tokens)
      = Returns (SimilarityResult true path 40)).
Proof.
  intros text target_tokens intersection union unrounded.
  assert (Hempty : truthy text = false -> target_tokens = ∅).
  { intros Ht. subst target_tokens. destruct text; [reflexivity|discriminate]. }
  assert (Hgen : target_tokens <> ∅ ->
      worker_similarity_scan w (path, ref_tokens)
      = if F64.gtb unrounded 5
        then Returns (SimilarityResult true path (F64.round1 unrounded))
        else Returns (SimilarityResult false path 0)).
  { intros Hne. unfold worker_similarity_scan. fold text.
    destruct (truthy text) eqn:Ht; [|exfalso; auto].
    cbn [negb]. fold target_tokens.
    rewrite bool_decide_eq_false_2 by assumption.
    unfold jaccard_score. fold intersection union.
    pose proof (size_union_pos ref_tokens target_tokens Hne).
    destruct (Z.ltb_spec 0 union); [reflexivity|subst union; lia]. }
  split; [|split; [exact Hgen|split]].
  - intros [Ht|He].
    + unfold worker_similarity_scan. fold text. rewrite Ht. reflexivity.
    + unfold worker_similarity_scan. fold text.
      destruct (truthy text); [|reflexivity]. cbn [negb]. fold target_tokens.
      rewrite bool_decide_eq_true_2 by assumption. reflexivity.
  - intros Hne Hbound. apply percent_score_gt5.
    + pose proof (size_inter_le_union ref_tokens target_tokens).
      subst intersection union. lia.
    + pose proof (size_union_pos ref_tokens target_tokens Hne).
      subst union. lia.
  - intros Hr Ht.
    assert (Hne : target_tokens <> ∅).
    { rewrite Ht. intros He. apply (f_equal size) in He. vm_compute in He.
      discriminate. }
    rewrite (Hgen Hne). subst unrounded intersection union.
    rewrite Ht, Hr. vm_compute. reflexivity.
Qed.

Lemma similarity_job_score_witness :
  worker_similarity_scan Example.world
    ("/archive/target.txt", get_tokens "alpha beta gamma delta")
  = Returns (SimilarityResult true "/archive/target.txt" 40).
Proof.
  apply (similarity_job_score Example.world "/archive/target.txt"
           (get_tokens "alpha beta gamma delta")).
  - vm_compute. reflexivity.
  - vm_compute. reflexivity.
Defined.

(** ** Chunk comparison *)

(** A chunk takes part in the comparison: [len(text) < 50] is false. *)
Definition long_enough (c : Chunk) : Prop :=
  Nat.ltb (String.length (chunk_text c)) 50 = false.

Definition by_score_desc (x y : ComparisonResult) : Prop :=
  (score y <= score x)%Q.

(** [(s, p)] is what the inner loop tracks for [ref_item]: no target
    scores above [s]; and either no target scores above 0, or [s] is the
    score and [p] the page of a target that every earlier target scores
    strictly below. *)
Definition tracks_first_best (w : World) (ref_item : Chunk)
    (tgt_data : list Chunk) (s : Q) (p : string) : Prop :=
  (forall t, In t tgt_data -> long_enough t -> (chunk_ratio w ref_item t <= s)%Q)
  /\ ((s = 0%Q /\ p = "-")
      \/ exists l1 t l2,
           tgt_data = (l1 ++ t :: l2)%list
           /\ long_enough t
           /\ chunk_ratio w ref_item t = s
           /\ chunk_page t = p
           /\ forall t', In t' l1 -> long_enough t' ->
                (chunk_ratio w ref_item t' < s)%Q).

Lemma insert_desc_perm x l : Permutation (x :: l) (insert_desc x l).
Proof.
  induction l as [|y l IH]; cbn [insert_desc]; [reflexivity|].
  destruct (F64.gtb (score y) (score x)); [|reflexivity].
  rewrite perm_swap. now apply perm_skip.
Qed.

Lemma sort_desc_perm l : Permutation l (sort_desc l).
Proof.
  induction l as [|x l IH]; [reflexivity|].
  cbn [sort_desc fold_right]. fold (sort_desc l).
  rewrite <- insert_desc_perm. now apply perm_skip.
Qed.

Lemma insert_desc_sorted x l :
  StronglySorted by_score_desc l -> StronglySorted by_score_desc (insert_desc x l).
Proof.
  induction 1 as [|y l Hs IH Hall]; cbn [insert_desc].
  - repeat constructor.
  - destruct (F64.gtb (score y) (score x)) eqn:E.
    + constructor; [assumption|].
      apply (Permutation_Forall (insert_desc_perm x l)).
      constructor; [|assumption].
      apply F64.gtb_true in E. apply Qlt_le_weak. exact E.
    + apply F64.gtb_false in E.
      constructor; [constructor; assumption|].
      constructor; [exact E|].
      eapply List.Forall_impl; [|exact Hall].
      intros z Hz. unfold by_score_desc in *. eapply Qle_trans; eassumption.
Qed.

Lemma sort_desc_sorted l : StronglySorted by_score_desc (sort_desc l).
Proof.
  induction l as [|x l IH]; [constructor|].
  cbn [sort_desc fold_right]. now apply insert_desc_sorted.
Qed.

Section ChunkComparison.

Variable w : World.

Lemma best_match_tracks ref_item tgt_data b0 p0 :
  forall s p, best_match w ref_item tgt_data b0 p0 = (s, p) ->
  (b0 <= s)%Q
  /\ (forall t, In t tgt_data -> long_enough t ->
        (chunk_ratio w ref_item t <= s)%Q)
  /\ ((s = b0 /\ p = p0)
      \/ exists l1 t l2,
           tgt_data = (l1 ++ t :: l2)%list
           /\ long_enough t
           /\ chunk_ratio w ref_item t = s
           /\ chunk_page t = p
           /\ (b0 < s)%Q
           /\ forall t', In t' l1 -> long_enough t' ->
                (chunk_ratio w ref_item t' < s)%Q).
Proof.
  revert b0 p0.
  induction tgt_data as [|t rest IH]; intros b0 p0 s p Hb.
  - cbn in Hb. injection Hb as <- <-.
    split; [apply Qle_refl|]. split; [intros ? []|]. now left.
  - cbn [best_match] in Hb.
    destruct (Nat.ltb (String.length (chunk_text t)) 50) eqn:Elen.
    + destruct (IH _ _ _ _ Hb) as (Hle & Hmax & Hcase).
      split; [assumption|]. split.
      * intros t' [<-|Hin] Ht'; [unfold long_enough in Ht'; congruence|auto].
      * destruct Hcase as [?|(l1 & t0 & l2 & -> & ? & ? & ? & ? & Hl1)];
          [now left|right].
        exists (t :: l1), t0, l2. repeat split; try assumption.
        intros t' [<-|Hin] Ht'; [unfold long_enough in Ht'; congruence|auto].
    + destruct (F64.gtb (chunk_ratio w ref_item t) b0) eqn:Egt.
      * apply F64.gtb_true in Egt.
        destruct (IH _ _ _ _ Hb) as (Hle & Hmax & Hcase).
        split; [eapply Qle_trans; [apply Qlt_le_weak|]; eassumption|].
        split.
        -- intros t' [<-|Hin] Ht'; [assumption|auto].
        -- right.
           destruct Hcase as [[-> ->]|(l1 & t0 & l2 & -> & ? & ? & ? & ? & Hl1)].
           ++ exists [], t, rest. repeat split; try assumption.
              intros ? [].
           ++ exists (t :: l1), t0, l2. repeat split; try assumption.
              ** eapply Qlt_trans; eassumption.
              ** intros t' [<-|Hin] Ht'; [assumption|auto].
      * apply F64.gtb_false in Egt.
        destruct (IH _ _ _ _ Hb) as (Hle & Hmax & Hcase).
        split; [assumption|]. split.
        -- intros t' [<-|Hin] Ht'; [eapply Qle_trans; eassumption|auto].
        -- destruct Hcase as [?|(l1 & t0 & l2 & -> & ? & ? & ? & ? & Hl1)];
             [now left|right].
           exists (t :: l1), t0, l2. repeat split; try assumption.
           intros t' [<-|Hin] Ht'; [|auto].
           eapply Qle_lt_trans; eassumption.
Qed.

Lemma best_match_tracks_first ref_item tgt_data s p :
  best_match w ref_item tgt_data 0 "-" = (s, p) ->
  tracks_first_best w ref_item tgt_data s p.
Proof.
  intros Hb. destruct (best_match_tracks _ _ _ _ _ _ Hb) as (_ & Hmax & Hcase).
  split; [assumption|].
  destruct Hcase as [?|(l1 & t & l2 & ? & ? & ? & ? & _ & ?)]; [now left|right].
  exists l1, t, l2. repeat split; assumption.
Qed.

(** The results appended by the outer loop are those of the reference
    chunks that take part and whose best score exceeds 15. *)
Lemma compare_chunks_in ref_data tgt_data r :
  In r (compare_chunks w ref_data tgt_data) <->
  exists ref_item s p,
    In ref_item ref_data
    /\ long_enough ref_item
    /\ best_match w ref_item tgt_data 0 "-" = (s, p)
    /\ (15 < s)%Q
    /\ r = {| ref_page := chunk_page ref_item;
              tgt_page := p;
              score := F64.round1 s;
              preview := make_preview (chunk_text ref_item) |}.
Proof.
  induction ref_data as [|c rest IH]; cbn [compare_chunks].
  - split; [intros []|intros (? & ? & ? & [] & _)].
  - destruct (Nat.ltb (String.length (chunk_text c)) 50) eqn:Elen.
    + rewrite IH. split.
      * intros (c' & s & p & Hin & H). exists c', s, p. split; [now right|exact H].
      * intros (c' & s & p & [<-|Hin] & Hl & H).
        -- unfold long_enough in Hl. congruence.
        -- exists c', s, p. auto.
    + destruct (best_match w c tgt_data 0 "-") as [s0 p0] eqn:Eb.
      destruct (F64.gtb s0 15) eqn:Egt.
      * cbn [In]. rewrite IH. apply F64.gtb_true in Egt. split.
        -- intros [<-|(c' & s & p & Hin & H)].
           ++ exists c, s0, p0. repeat split; auto.
           ++ exists c', s, p. split; [now right|exact H].
        -- intros (c' & s & p & [<-|Hin] & Hl & Hb & Hs & ->).
           ++ left. rewrite Eb in Hb. injection Hb as <- <-. reflexivity.
           ++ right. exists c', s, p. auto.
      * rewrite IH. apply F64.gtb_false in Egt. split.
        -- intros (c' & s & p & Hin & H). exists c', s, p. split; [now right|exact H].
        -- intros (c' & s & p & [<-|Hin] & Hl & Hb & Hs & ->).
           ++ rewrite Eb in Hb. injection Hb as <- <-.
              exfalso. eapply Qlt_not_le; eassumption.
           ++ exists c', s, p. auto.
Qed.

(** C5: for every reference chunk, [compare_structure] tracks the single
    best-scoring target chunk, the first one found among equal scores; it
    emits a result only for a best score above 15; and the list it returns
    holds exactly the emitted results, sorted by score in descending
    order. *)
Theorem compare_structure_best_first_sorted (ref_path target_path : string) :
  let ref_data := parse_text_chunks_with_location w ref_path in
  let tgt_data := parse_text_chunks_with_location w target_path in
  let results := compare_structure w ref_path target_path in
  StronglySorted by_score_desc results
  /\ Permutation (compare_chunks w ref_data tgt_data) results
  /\ (forall ref_item s p,
        best_match w ref_item tgt_data 0 "-" = (s, p) ->
        tracks_first_best w ref_item tgt_data s p)
  /\ (forall r, In r results ->
        exists ref_item s,
          In ref_item ref_data
          /\ long_enough ref_item
          /\ best_match w ref_item tgt_data 0 "-" = (s, tgt_page r)
          /\ (15 < s)%Q
          /\ ref_page r = chunk_page ref_item
          /\ score r = F64.round1 s
          /\ preview r = make_preview (chunk_text ref_item))
  /\ (forall ref_item s p,
        best_match w ref_item tgt_data 0 "-" = (s, p) ->
        (s <= 15)%Q ->
        compare_chunks w [ref_item] tgt_data = []).
Proof.
  intros ref_data tgt_data results.
  split; [apply sort_desc_sorted|].
  split; [apply sort_desc_perm|].
  split; [intros; now apply best_match_tracks_first|].
  split.
  - intros r Hin.
    apply (Permutation_in r (Permutation_sym (sort_desc_perm _))) in Hin.
    apply compare_chunks_in in Hin
      as (c & s & p & Hc & Hl & Hb & Hs & ->).
    exists c, s. cbn. repeat split; assumption.
  - intros c s p Hb Hs. cbn [compare_chunks].
    destruct (Nat.ltb (String.length (chunk_text c)) 50); [reflexivity|].
    rewrite Hb. apply F64.gtb_false in Hs. now rewrite Hs.
Qed.

End ChunkComparison.

(** ** Two documents with the same pages *)

(** The text [compare_structure] hands to the sequence matcher. *)
Definition clean_text (c : Chunk) : string :=
  translate CLEAN_TRANS (lower (chunk_text c)).

Section IdenticalDocuments.

Variable w : World.

Lemma chunk_ratio_clean c t :
  chunk_ratio w c t = F64.fmul (sequence_ratio w (clean_text c) (clean_text t)) 100.
Proof. reflexivity. Qed.

(** C4, amended: let two documents have the same extracted pages, and let
    the sequence matcher score every pair of their chunks between 0 and 1
    and every chunk 1.0 against itself.  Then every reference chunk of 50
    characters or more yields a result with score 100.0 whose target page
    is the page of the first chunk of the document that scores 100 against
    it.  This is the reference chunk's own page when the chunks that score
    100 against it all lie on that page; a chunk repeated on an earlier
    page takes the match otherwise. *)
Theorem identical_pages_score_100 (ref_path target_path : string) (c : Chunk) :
  let chunks := parse_text_chunks_with_location w target_path in
  extract_pages w ref_path = extract_pages w target_path ->
  (forall t t', In t chunks -> In t' chunks ->
     (0 <= sequence_ratio w (clean_text t) (clean_text t') <= 1)%Q) ->
  (forall t, In t chunks ->
     (sequence_ratio w (clean_text t) (clean_text t) == 1)%Q) ->
  In c (parse_text_chunks_with_location w ref_path) ->
  long_enough c ->
  exists r l1 t l2,
    In r (compare_structure w ref_path target_path)
    /\ ref_page r = chunk_page c
    /\ score r = 100%Q
    /\ preview r = make_preview (chunk_text c)
    /\ chunks = (l1 ++ t :: l2)%list
    /\ long_enough t
    /\ chunk_ratio w c t = 100%Q
    /\ tgt_page r = chunk_page t
    /\ (forall t', In t' l1 -> long_enough t' -> (chunk_ratio w c t' < 100)%Q)
    /\ ((forall t', In t' chunks -> long_enough t' ->
           chunk_ratio w c t' = 100%Q -> chunk_page t' = chunk_page c) ->
        tgt_page r = chunk_page c).
Proof.
  intros chunks Hsame Hrange Hself Hc Hlong.
  assert (Eref : parse_text_chunks_with_location w ref_path = chunks).
  { unfold chunks, parse_text_chunks_with_location. now rewrite Hsame. }
  rewrite Eref in Hc.
  destruct (best_match w c chunks 0 "-") as [s p] eqn:Eb.
  pose proof (best_match_tracks_first w _ _ _ _ Eb) as [Hmax Hcase].
  assert (Hself100 : chunk_ratio w c c = 100%Q).
  { rewrite chunk_ratio_clean. apply F64.fmul100_one. now apply Hself. }
  assert (Hs100 : (100 <= s)%Q).
  { rewrite <- Hself100. now apply Hmax. }
  destruct Hcase as [[-> _]|(l1 & t & l2 & Hsplit & Ht & Hrt & Hpt & Hl1)].
  { exfalso. revert Hs100. apply Qlt_not_le. reflexivity. }
  assert (Hin_t : In t chunks).
  { rewrite Hsplit. apply in_or_app. right. now left. }
  assert (Es : s = 100%Q).
  { rewrite <- Hrt, chunk_ratio_clean. apply F64.fl_eq_of_Qeq; [|reflexivity].
    apply Qle_antisym.
    - apply F64.fmul100_le; now apply Hrange.
    - fold (F64.fmul (sequence_ratio w (clean_text c) (clean_text t)) 100).
      rewrite <- chunk_ratio_clean, Hrt. exact Hs100. }
  rewrite Es in Eb, Hrt, Hl1.
  set (r := {| ref_page := chunk_page c; tgt_page := p;
               score := F64.round1 100;
               preview := make_preview (chunk_text c) |}).
  exists r, l1, t, l2.
  assert (Hr : In r (compare_structure w ref_path target_path)).
  { unfold compare_structure. rewrite Eref. fold chunks.
    apply (Permutation_in r (sort_desc_perm _)).
    apply compare_chunks_in. exists c, 100%Q, p.
    repeat split; try assumption; reflexivity. }
  repeat split; try assumption; try reflexivity.
  - symmetry. exact Hpt.
  - intros Hpages. cbn. rewrite <- Hpt. now apply Hpages.
Qed.

End IdenticalDocuments.

(** C4 as stated fails when a paragraph is repeated on a later page: in
    [REPORT.PDF] the chunk of page 2 is the first chunk of page 1 again,
    and its best target is the one on page 1. *)
Lemma repeated_chunk_matches_earlier_page :
  In {| chunk_id := "3"; chunk_text := Example.paragraph_one;
        chunk_page := "2" |}
     (parse_text_chunks_with_location Example.world "/archive/REPORT.PDF")
  /\ long_enough {| chunk_id := "3"; chunk_text := Example.paragraph_one;
                    chunk_page := "2" |}
  /\ ~ exists r,
         In r (compare_structure Example.world "/archive/REPORT.PDF"
                 "/archive/REPORT.PDF")
         /\ ref_page r = "2" /\ tgt_page r = "2".
Proof.
  split; [vm_compute; intuition|]. split; [reflexivity|].
  intros (r & Hin & Hr & Ht). vm_compute in Hin.
  destruct Hin as [<-|[<-|[<-|[]]]]; cbn in Hr, Ht; discriminate.
Qed.

Lemma identical_pages_score_100_witness :
  exists r l1 t l2,
    In r (compare_structure Example.world "/archive/REPORT.PDF"
            "/archive/REPORT.PDF")
    /\ ref_page r = "1"
    /\ score r = 100%Q
    /\ preview r = make_preview Example.paragraph_two
    /\ parse_text_chunks_with_location Example.world "/archive/REPORT.PDF"
       = (l1 ++ t :: l2)%list
    /\ long_enough t
    /\ chunk_ratio Example.world
         {| chunk_id := "2"; chunk_text := Example.paragraph_two;
            chunk_page := "1" |} t = 100%Q
    /\ tgt_page r = chunk_page t
    /\ (forall t', In t' l1 -> long_enough t' ->
          (chunk_ratio Example.world
             {| chunk_id := "2"; chunk_text := Example.paragraph_two;
                chunk_page := "1" |} t' < 100)%Q)
    /\ ((forall t',
           In t' (parse_text_chunks_with_location Example.world
                    "/archive/REPORT.PDF") ->
           long_enough t' ->
           chunk_ratio Example.world
             {| chunk_id := "2"; chunk_text := Example.paragraph_two;
                chunk_page := "1" |} t' = 100%Q ->
           chunk_page t' = "1") ->
        tgt_page r = "1").
Proof.
  apply (identical_pages_score_100 Example.world "/archive/REPORT.PDF"
           "/archive/REPORT.PDF"
           {| chunk_id := "2"; chunk_text := Example.paragraph_two;
              chunk_page := "1" |}).
  - reflexivity.
  - intros t t' Ht Ht'. vm_compute in Ht, Ht'.
    destruct Ht as [<-|[<-|[<-|[]]]]; destruct Ht' as [<-|[<-|[<-|[]]]];
      vm_compute; split; discriminate.
  - intros t Ht. vm_compute in Ht.
    destruct Ht as [<-|[<-|[<-|[]]]]; vm_compute; reflexivity.
  - vm_compute. right. left. reflexivity.
  - reflexivity.
Defined.

(** ** The pool loop *)

Definition never : nat -> bool := fun _ => false.

(** The percentage passed by a progress callback. *)
Definition percent_of (e : event) : option Z :=
  match e with
  | OnProg p _ => Some p
  | _ => None
  end.

Lemma percent_mono (c c' total : nat) :
  (c <= c')%nat -> (c' <= total)%nat -> (0 < total)%nat ->
  (percent c total <= percent c' total)%Z.
Proof.
  intros Hc Hc' Ht. unfold percent. apply F64.int_mono.
  - unfold F64.fmul. apply F64.fl_nonneg.
    apply Qmult_le_0_compat; [|discriminate].
    apply F64.fdiv_nonneg; lia.
  - apply F64.fmul100_mono.
    + apply F64.fdiv_nonneg; lia.
    + apply F64.fdiv_mono; lia.
    + apply F64.fdiv_le_one; lia.
Qed.

Lemma percent_final (total : nat) : (0 < total)%nat -> percent total total = 100%Z.
Proof.
  intros Ht. unfold percent. rewrite F64.fdiv_same by lia. reflexivity.
Qed.

Section PoolProperties.

Variable w : World.
Context {T : Type}.
Variable worker : T -> outcome job_result.
Variable path_of : T -> string.
Variable cbs : Callbacks.
Variable total : nat.

Lemma pool_loop_ext flags flags' completed i c m :
  (forall j, (j < length completed)%nat -> flags (i + j)%nat = flags' (i + j)%nat) ->
  pool_loop w worker path_of cbs total flags completed i c m
  = pool_loop w worker path_of cbs total flags' completed i c m.
Proof.
  revert i c m. induction completed as [|t rest IH]; intros i c m H; [reflexivity|].
  cbn [pool_loop].
  pose proof (H 0%nat ltac:(cbn; lia)) as H0. rewrite Nat.add_0_r in H0.
  rewrite <- H0. destruct (flags i); [reflexivity|].
  rewrite (IH (S i)); [reflexivity|].
  intros j Hj. replace (S i + j)%nat with (i + S j)%nat by lia.
  apply H. cbn. lia.
Qed.

(** A run stops at the first iteration that reads a set flag: the jobs
    that complete from then on leave no trace. *)
Lemma pool_loop_stops flags completed i c m k :
  flags (i + k)%nat = true ->
  (forall j, (j < k)%nat -> flags (i + j)%nat = false) ->
  pool_loop w worker path_of cbs total flags completed i c m
  = pool_loop w worker path_of cbs total never (firstn k completed) i c m.
Proof.
  revert i c m k.
  induction completed as [|t rest IH]; intros i c m k Hk Hbefore.
  - now rewrite firstn_nil.
  - destruct k as [|k].
    + cbn [firstn pool_loop]. rewrite Nat.add_0_r in Hk. now rewrite Hk.
    + cbn [firstn pool_loop].
      pose proof (Hbefore 0%nat ltac:(lia)) as H0. rewrite Nat.add_0_r in H0.
      rewrite H0. unfold never at 1.
      rewrite (IH (S i) _ _ k); [reflexivity| |].
      * replace (S i + k)%nat with (i + S k)%nat by lia. exact Hk.
      * intros j Hj. replace (S i + j)%nat with (i + S j)%nat by lia.
        apply Hbefore. lia.
Qed.

Lemma match_events_spec t e :
  In e (match_events worker cbs t) ->
  exists res, e = OnMatch res /\ worker t = Returns res /\ res0 res = true.
Proof.
  unfold match_events. destruct (worker t) as [res|]; [|intros []].
  destruct (res0 res) eqn:E; [|intros []].
  destruct (has_on_match cbs); [|intros []].
  intros [<-|[]]. eauto.
Qed.

Lemma prog_events_spec t c e :
  In e (prog_events w path_of cbs total t c) ->
  e = OnProg (percent c total) (basename w (path_of t))
  /\ prog_due total c = true.
Proof.
  unfold prog_events. destruct (has_on_prog cbs); [|intros []].
  destruct (prog_due total c); [|intros []].
  intros [<-|[]]. auto.
Qed.

(** The loop itself never calls [on_done]; every match callback carries
    the result of one of the jobs it went through. *)
Lemma pool_loop_events flags completed i c m e :
  In e (snd (pool_loop w worker path_of cbs total flags completed i c m)) ->
  is_on_done e = false
  /\ (forall res, e = OnMatch res ->
        exists t, In t completed /\ worker t = Returns res /\ res0 res = true).
Proof.
  revert i c m. induction completed as [|t rest IH]; intros i c m; [intros []|].
  cbn [pool_loop]. destruct (flags i); [intros []|].
  destruct (pool_loop w worker path_of cbs total flags rest (S i) (S c) _)
    as [m' evs] eqn:E.
  cbn [snd]. intros Hin.
  apply in_app_or in Hin as [Hin|Hin]; [|apply in_app_or in Hin as [Hin|Hin]].
  - apply match_events_spec in Hin as (res & -> & Hw & Hr).
    split; [reflexivity|]. intros res' [= <-]. exists t. split; [now left|auto].
  - apply prog_events_spec in Hin as [-> _]. split; [reflexivity|discriminate].
  - specialize (IH (S i) (S c) (if job_matched worker t then S m else m) ).
    rewrite E in IH. destruct (IH Hin) as [Hd Hm]. split; [assumption|].
    intros res Hres. destruct (Hm res Hres) as (t' & Ht' & H).
    exists t'. split; [now right|assumption].
Qed.

(** The match counter counts the matched jobs the loop went through. *)
Lemma pool_loop_matches completed i c m :
  fst (pool_loop w worker path_of cbs total never completed i c m)
  = (m + length (List.filter (job_matched worker) completed))%nat.
Proof.
  revert i c m. induction completed as [|t rest IH]; intros i c m.
  - cbn. lia.
  - cbn [pool_loop List.filter]. unfold never at 1.
    destruct (pool_loop w worker path_of cbs total never rest (S i) (S c) _)
      as [m' evs] eqn:E.
    cbn [fst]. specialize (IH (S i) (S c) (if job_matched worker t then S m else m)).
    rewrite E in IH. cbn [fst] in IH. rewrite IH.
    destruct (job_matched worker t); cbn [length]; lia.
Qed.

(** The progress callbacks of an uninterrupted loop: one for every due
    value of the counter, in order. *)
Lemma pool_loop_progress completed i c m :
  has_on_prog cbs = true ->
  List.filter is_on_prog
    (snd (pool_loop w worker path_of cbs total never completed i c m))
  = List.map (fun ct => OnProg (percent (fst ct) total)
                          (basename w (path_of (snd ct))))
      (List.filter (fun ct => prog_due total (fst ct))
         (combine (seq (S c) (length completed)) completed)).
Proof.
  intros Hp. revert i c m.
  induction completed as [|t rest IH]; intros i c m; [reflexivity|].
  cbn [pool_loop length seq combine List.filter]. unfold never at 1.
  destruct (pool_loop w worker path_of cbs total never rest (S i) (S c) _)
    as [m' evs] eqn:E.
  cbn [snd fst]. rewrite !List.filter_app.
  specialize (IH (S i) (S c) (if job_matched worker t then S m else m)).
  rewrite E in IH. cbn [snd] in IH. rewrite IH.
  assert (Hm : List.filter is_on_prog (match_events worker cbs t) = []).
  { unfold match_events. destruct (worker t) as [res|]; [|reflexivity].
    destruct (res0 res && has_on_match cbs); reflexivity. }
  rewrite Hm. cbn [app]. unfold prog_events. rewrite Hp. cbn [andb].
  destruct (prog_due total (S c)); reflexivity.
Qed.

Lemma prog_events_no_match t c :
  List.filter is_on_match (prog_events w path_of cbs total t c) = [].
Proof.
  unfold prog_events. destruct (has_on_prog cbs && prog_due total c); reflexivity.
Qed.

(** The results with a true first component, of the jobs an uninterrupted
    loop goes through: the counter counts them, and the match callback is
    invoked on each of them, in order. *)
Lemma pool_loop_matched completed i c m :
  let matched :=
    flat_map (fun t => match worker t with
                       | Returns res => if res0 res then [res] else []
                       | Raises => []
                       end) completed in
  fst (pool_loop w worker path_of cbs total never completed i c m)
  = (m + length matched)%nat
  /\ List.filter is_on_match
       (snd (pool_loop w worker path_of cbs total never completed i c m))
     = if has_on_match cbs then List.map OnMatch matched else [].
Proof.
  cbv zeta. revert i c m.
  induction completed as [|t rest IH]; intros i c m.
  - cbn. split; [lia|now destruct (has_on_match cbs)].
  - cbn [pool_loop flat_map]. unfold never at 1 3.
    specialize (IH (S i) (S c) (if job_matched worker t then S m else m)).
    destruct (pool_loop w worker path_of cbs total never rest (S i) (S c) _)
      as [m' evs].
    cbn [fst snd] in *. destruct IH as [IHm IHe].
    rewrite !List.filter_app, prog_events_no_match, IHe, IHm.
    rewrite length_app. unfold job_matched, match_events.
    destruct (worker t) as [res|]; [|split; [cbn; lia|reflexivity]].
    destruct (res0 res); [|split; [cbn; lia|reflexivity]].
    destruct (has_on_match cbs); split; cbn; try lia; reflexivity.
Qed.

End PoolProperties.

(** ** Runs of the pool *)

Lemma filter_none {A : Type} (f : A -> bool) (l : list A) :
  (forall x, In x l -> f x = false) -> List.filter f l = [].
Proof.
  induction l as [|x l IH]; intros H; [reflexivity|].
  cbn [List.filter]. rewrite (H x) by now left.
  apply IH. intros y Hy. apply H. now right.
Qed.

Lemma map_sorted {A B : Type} (R : A -> A -> Prop) (R' : B -> B -> Prop)
    (P : A -> Prop) (f : A -> B) (l : list A) :
  (forall x y, P x -> P y -> R x y -> R' (f x) (f y)) ->
  Forall P l -> StronglySorted R l -> StronglySorted R' (List.map f l).
Proof.
  intros Hf HP Hs. induction Hs as [|x l Hs IH Hall]; [constructor|].
  apply List.Forall_cons_iff in HP as [Px Pl].
  cbn [List.map]. constructor; [now apply IH|].
  apply List.Forall_forall. intros y Hy. apply in_map_iff in Hy as (z & <- & Hz).
  rewrite List.Forall_forall in Hall, Pl. apply Hf; auto.
Qed.

Lemma filter_sorted {A : Type} (R : A -> A -> Prop) (f : A -> bool) (l : list A) :
  StronglySorted R l -> StronglySorted R (List.filter f l).
Proof.
  induction 1 as [|x l Hs IH Hall]; [constructor|].
  cbn [List.filter]. destruct (f x); [|assumption].
  constructor; [assumption|].
  apply List.Forall_forall. intros y Hy. apply filter_In in Hy as [Hy _].
  rewrite List.Forall_forall in Hall. auto.
Qed.

Lemma seq_sorted (a n : nat) : StronglySorted lt (seq a n).
Proof.
  revert a. induction n as [|n IH]; intros a; [constructor|].
  cbn [seq]. constructor; [apply IH|].
  apply List.Forall_forall. intros y Hy. apply in_seq in Hy. lia.
Qed.

Lemma combine_fst_filter {A B : Type} (f : A -> bool) (a : list A) (b : list B) :
  length a = length b ->
  List.map fst (List.filter (fun ab => f (fst ab)) (combine a b))
  = List.filter f a.
Proof.
  revert b. induction a as [|x a IH]; intros [|y b] H; try discriminate;
    [reflexivity|].
  cbn [combine List.filter fst]. injection H as H.
  destruct (f x); cbn [List.map fst]; now rewrite IH.
Qed.

Lemma omap_percent_map {A : Type} (f : A -> nat) (g : A -> string)
    (total : nat) (l : list A) :
  omap percent_of (List.map (fun x => OnProg (percent (f x) total) (g x)) l)
  = List.map (fun x => percent (f x) total) l.
Proof.
  induction l as [|x l IH]; [reflexivity|]. cbn. f_equal. exact IH.
Qed.

Lemma combine_seq_snoc {A : Type} (a : nat) (init : list A) (t : A) :
  combine (seq a (length init + 1)) (init ++ [t])
  = (combine (seq a (length init)) init ++ [((a + length init)%nat, t)])%list.
Proof.
  revert a. induction init as [|x init IH]; intros a.
  - cbn. now rewrite Nat.add_0_r.
  - cbn [length Nat.add seq combine app]. rewrite IH.
    now rewrite Nat.add_succ_r.
Qed.

(** Every submitted job completes once: the tasks in completion order are
    as many as the tasks. *)
Lemma completion_order_length {T : Type} (tasks : list T) (order : list nat) :
  Permutation order (seq 0 (length tasks)) ->
  length (in_completion_order tasks order) = length tasks.
Proof.
  intros Hp. unfold in_completion_order.
  assert (Hall : Forall (fun i => (i < length tasks)%nat) order).
  { apply List.Forall_forall. intros i Hi.
    apply (Permutation_in _ Hp) in Hi. apply in_seq in Hi. lia. }
  transitivity (length order).
  - clear Hp. induction Hall as [|i order Hi Hall IH]; [reflexivity|].
    destruct (lookup_lt_is_Some_2 tasks i Hi) as [t Ht].
    cbn. rewrite Ht. cbn. now rewrite IH.
  - rewrite (Permutation_length Hp). apply List.length_seq.
Qed.

Section PoolRuns.

Variable w : World.
Context {T : Type}.
Variable worker : T -> outcome job_result.
Variable path_of : T -> string.
Variable tasks : list T.
Variable cbs : Callbacks.
Variable sched : Schedule.

(** A run that has the done callback calls it once, last. *)
Lemma run_pool_done_once :
  has_on_done cbs = true ->
  exists evs m,
    _run_pool w worker path_of tasks cbs sched = (evs ++ [OnDone m])%list
    /\ (forall e, In e evs -> is_on_done e = false)
    /\ length (List.filter is_on_done
                 (_run_pool w worker path_of tasks cbs sched)) = 1%nat.
Proof.
  intros Hd. unfold _run_pool.
  destruct (pool_loop w worker path_of cbs (length tasks) (flag_at sched) _ 0 0 0)
    as [m evs] eqn:E.
  rewrite Hd. exists evs, m.
  assert (Hevs : forall e, In e evs -> is_on_done e = false).
  { intros e He.
    eapply (pool_loop_events w worker path_of cbs (length tasks)).
    rewrite E. exact He. }
  repeat split; [assumption|].
  rewrite List.filter_app, (filter_none _ _ Hevs). reflexivity.
Qed.

(** C7: let the loop read a set stop flag for the first time at its
    iteration [k], and let [matched] be the results whose first component
    is true, of the jobs that completed before that, in order.  Then the
    run ends with the one call of the done callback, with the number of
    these results; the match callback is invoked on exactly these results,
    in order, and on no result of a job that completes from then on; and
    up to the done callback the run is the uninterrupted run over the
    first [k] completed jobs. *)
Theorem cancelled_run_reports_done_once (k : nat) :
  has_on_done cbs = true ->
  flag_at sched k = true ->
  (forall j, (j < k)%nat -> flag_at sched j = false) ->
  let completed := in_completion_order tasks (completion_order sched) in
  let before := firstn k completed in
  let trace := _run_pool w worker path_of tasks cbs sched in
  let matched :=
    flat_map (fun t => match worker t with
                       | Returns res => if res0 res then [res] else []
                       | Raises => []
                       end) before in
  (exists evs,
     trace = (evs ++ [OnDone (length matched)])%list
     /\ (forall e, In e evs -> is_on_done e = false)
     /\ List.filter is_on_match evs
        = if has_on_match cbs then List.map OnMatch matched else [])
  /\ trace
     = (snd (pool_loop w worker path_of cbs (length tasks) never before 0 0 0)
        ++ [OnDone (length matched)])%list
  /\ (forall res, In (OnMatch res) trace ->
        exists t, In t before /\ worker t = Returns res /\ res0 res = true)
  /\ length (List.filter is_on_done trace) = 1%nat.
Proof.
  intros Hd Hk Hbefore completed before trace matched.
  destruct (pool_loop_matched w worker path_of cbs (length tasks) before 0 0 0)
    as [Hm He].
  fold matched in Hm, He. cbn [Nat.add] in Hm.
  assert (E : trace
    = (snd (pool_loop w worker path_of cbs (length tasks) never before 0 0 0)
       ++ [OnDone (length matched)])%list).
  { unfold trace, _run_pool. fold completed.
    rewrite (pool_loop_stops w worker path_of cbs (length tasks)
               (flag_at sched) completed 0 0 0 k Hk Hbefore).
    fold before.
    destruct (pool_loop w worker path_of cbs (length tasks) never before 0 0 0)
      as [m evs].
    cbn [fst snd] in *. rewrite Hd, Hm. reflexivity. }
  assert (Hevs : forall e,
    In e (snd (pool_loop w worker path_of cbs (length tasks) never before 0 0 0)) ->
    is_on_done e = false).
  { intros e Hin. now apply pool_loop_events in Hin as [H _]. }
  split; [|split; [exact E|split]].
  - eexists. split; [exact E|]. split; [exact Hevs|exact He].
  - intros res Hin. rewrite E in Hin.
    apply in_app_or in Hin as [Hin|[Hin|[]]]; [|discriminate].
    apply pool_loop_events in Hin as [_ Hres].
    exact (Hres res eq_refl).
  - rewrite E, List.filter_app, (filter_none _ _ Hevs). reflexivity.
Qed.

(** C8: in a run that is not cancelled, over a non-empty task list whose
    jobs all complete, the progress callback is invoked for exactly the
    completions whose number [count] is a multiple of 5 or the total, with
    the base name of the file of that job and the binary64 value of
    [int(count / total * 100)].  For up to [2 ^ 44] tasks that value is the
    exact percentage [100 * count / total] rounded down, or one below it;
    the percentages never decrease; and the last one, passed at the final
    completion, is 100. *)
Theorem progress_cadence_and_final_100 :
  has_on_prog cbs = true ->
  (forall i, (i < length tasks)%nat -> flag_at sched i = false) ->
  Permutation (completion_order sched) (seq 0 (length tasks)) ->
  tasks <> [] ->
  let total := length tasks in
  let completed := in_completion_order tasks (completion_order sched) in
  let progress :=
    List.filter is_on_prog (_run_pool w worker path_of tasks cbs sched) in
  let pct := fun count : nat =>
    F64.int (F64.fmul (F64.fdiv (inject_Z (Z.of_nat count))
                                (inject_Z (Z.of_nat total))) 100) in
  progress
  = List.map (fun ct => OnProg (pct (fst ct)) (basename w (path_of (snd ct))))
      (List.filter (fun ct => Nat.eqb (fst ct mod 5) 0 || Nat.eqb (fst ct) total)
         (combine (seq 1 total) completed))
  /\ (forall count, (1 <= count <= total)%nat ->
        (Z.of_nat total <= 2 ^ 44)%Z ->
        (100 * Z.of_nat count / Z.of_nat total - 1 <= pct count
         <= 100 * Z.of_nat count / Z.of_nat total)%Z)
  /\ StronglySorted Z.le (omap percent_of progress)
  /\ exists earlier t,
       last completed = Some t
       /\ progress
          = (earlier ++ [OnProg 100 (basename w (path_of t))])%list.
Proof.
  intros Hp Hflags Hperm Hne total completed progress pct.
  change pct with (fun count : nat => percent count total). cbv beta.
  clear pct.
  pose proof (completion_order_length tasks _ Hperm) as Hlen.
  fold completed total in Hlen.
  assert (Htotal : (0 < total)%nat).
  { subst total. destruct tasks; [congruence|cbn; lia]. }
  assert (E : progress
    = List.map (fun ct => OnProg (percent (fst ct) total)
                            (basename w (path_of (snd ct))))
        (List.filter (fun ct => prog_due total (fst ct))
           (combine (seq 1 total) completed))).
  { unfold progress, _run_pool. fold completed total.
    rewrite (pool_loop_ext w worker path_of cbs total (flag_at sched) never
               completed 0 0 0)
      by (intros j Hj; cbn [Nat.add]; apply Hflags; fold total; lia).
    pose proof (pool_loop_progress w worker path_of cbs total completed 0 0 0 Hp)
      as Hprog.
    destruct (pool_loop w worker path_of cbs total never completed 0 0 0)
      as [m evs].
    cbn [snd] in Hprog. rewrite List.filter_app, Hprog, Hlen.
    destruct (has_on_done cbs); cbn [List.filter is_on_done];
      now rewrite app_nil_r. }
  split; [exact E|]. split; [|split].
  - intros count Hc Hbig. unfold percent.
    apply F64.percentage_bounds; lia.
  - rewrite E.
    assert (Eo : omap percent_of
              (List.map (fun ct => OnProg (percent (fst ct) total)
                                     (basename w (path_of (snd ct))))
                 (List.filter (fun ct => prog_due total (fst ct))
                    (combine (seq 1 total) completed)))
            = List.map (fun c => percent c total)
                (List.filter (prog_due total) (seq 1 total))).
    { rewrite omap_percent_map.
      rewrite <- (List.map_map fst (fun c => percent c total)).
      rewrite combine_fst_filter by (rewrite List.length_seq; lia).
      reflexivity. }
    rewrite Eo.
    apply (map_sorted lt Z.le (fun c => (1 <= c <= total)%nat)).
    + intros x y Hx Hy Hxy. apply percent_mono; lia.
    + apply List.Forall_forall. intros x Hx. apply filter_In in Hx as [Hx _].
      apply in_seq in Hx. lia.
    + apply filter_sorted, seq_sorted.
  - destruct (exists_last (l := completed)) as (init & t & Ec).
    { intros Hnil. rewrite Hnil in Hlen. cbn in Hlen. lia. }
    assert (Hinit : total = (length init + 1)%nat).
    { rewrite Ec, length_app in Hlen. cbn in Hlen. lia. }
    exists (List.map (fun ct => OnProg (percent (fst ct) total)
                                  (basename w (path_of (snd ct))))
              (List.filter (fun ct => prog_due total (fst ct))
                 (combine (seq 1 (length init)) init))), t.
    split; [rewrite Ec; apply last_snoc|].
    rewrite E, Ec.
    replace (seq 1 total) with (seq 1 (length init + 1))
      by (f_equal; lia).
    rewrite combine_seq_snoc, List.filter_app, List.map_app. f_equal.
    cbn [List.filter fst snd].
    replace (1 + length init)%nat with total by lia.
    unfold prog_due at 1. rewrite Nat.eqb_refl, orb_true_r.
    cbn [List.map fst snd]. now rewrite percent_final.
Qed.

End PoolRuns.

(** A cancelled run of three jobs for the query [alpha]: the first job
    matches and is reported, the second does not match, and the third,
    which would match, completes once the flag is set and is not
    reported. *)
Lemma cancelled_run_reports_done_once_witness :
  (let completed :=
     in_completion_order Example.alpha_tasks
       (completion_order Example.stop_after_two) in
   let before := firstn 2 completed in
   let trace :=
     _run_pool Example.world (worker_search_file Example.world)
       Example.keyword_path Example.alpha_tasks Example.all_callbacks
       Example.stop_after_two in
   let matched :=
     flat_map (fun t => match worker_search_file Example.world t with
                        | Returns res => if res0 res then [res] else []
                        | Raises => []
                        end) before in
   (exists evs,
      trace = (evs ++ [OnDone (length matched)])%list
      /\ (forall e, In e evs -> is_on_done e = false)
      /\ List.filter is_on_match evs
         = if has_on_match Example.all_callbacks
           then List.map OnMatch matched else [])
   /\ trace
      = (snd (pool_loop Example.world (worker_search_file Example.world)
                Example.keyword_path Example.all_callbacks
                (length Example.alpha_tasks) never before 0 0 0)
         ++ [OnDone (length matched)])%list
   /\ (forall res, In (OnMatch res) trace ->
         exists t, In t before
                   /\ worker_search_file Example.world t = Returns res
                   /\ res0 res = true)
   /\ length (List.filter is_on_done trace) = 1%nat)
  /\ _run_pool Example.world (worker_search_file Example.world)
       Example.keyword_path Example.alpha_tasks Example.all_callbacks
       Example.stop_after_two
     = [OnMatch (KeywordResult true "/archive/sub/c.TXT" (PStr "Text")
                   "...alpha beta gamma delta...");
        OnDone 1]
  /\ List.map (worker_search_file Example.world) Example.alpha_tasks
     = [Returns (KeywordResult true "/archive/sub/c.TXT" (PStr "Text")
                   "...alpha beta gamma delta...");
        Returns (KeywordResult false "/archive/a.txt" (PNum 0) "");
        Returns (KeywordResult true "/archive/target.txt" (PStr "Text")
                   "...alpha beta epsilon...")].
Proof.
  split; [|split; vm_compute; reflexivity].
  apply (cancelled_run_reports_done_once Example.world
           (worker_search_file Example.world) Example.keyword_path
           Example.alpha_tasks Example.all_callbacks Example.stop_after_two 2).
  - reflexivity.
  - reflexivity.
  - intros j Hj. destruct j as [|[|j]]; [reflexivity|reflexivity|lia].
Defined.

(** The run over the six files of the archive: progress is reported at
    the fifth completion with [int(5 / 6 * 100) = 83] and at the last with
    100. *)
Lemma progress_cadence_and_final_100_witness :
  (let total := length Example.archive_tasks in
   let completed :=
     in_completion_order Example.archive_tasks
       (completion_order (Example.in_order 6)) in
   let progress :=
     List.filter is_on_prog
       (_run_pool Example.world (worker_search_file Example.world)
          Example.keyword_path Example.archive_tasks Example.all_callbacks
          (Example.in_order 6)) in
   let pct := fun count : nat =>
     F64.int (F64.fmul (F64.fdiv (inject_Z (Z.of_nat count))
                                 (inject_Z (Z.of_nat total))) 100) in
   progress
   = List.map (fun ct => OnProg (pct (fst ct))
                           (basename Example.world
                              (Example.keyword_path (snd ct))))
       (List.filter (fun ct => Nat.eqb (fst ct mod 5) 0 || Nat.eqb (fst ct) total)
          (combine (seq 1 total) completed))
   /\ (forall count, (1 <= count <= total)%nat ->
         (Z.of_nat total <= 2 ^ 44)%Z ->
         (100 * Z.of_nat count / Z.of_nat total - 1 <= pct count
          <= 100 * Z.of_nat count / Z.of_nat total)%Z)
   /\ StronglySorted Z.le (omap percent_of progress)
   /\ exists earlier t,
        last completed = Some t
        /\ progress
           = (earlier
              ++ [OnProg 100 (basename Example.world (Example.keyword_path t))])%list)
  /\ List.filter is_on_prog
       (_run_pool Example.world (worker_search_file Example.world)
          Example.keyword_path Example.archive_tasks Example.all_callbacks
          (Example.in_order 6))
     = [OnProg 83 "REPORT.PDF"; OnProg 100 "c.TXT"]
  /\ F64.int (F64.fmul (F64.fdiv (inject_Z 29) (inject_Z 100)) 100) = 28%Z.
Proof.
  split; [|split; vm_compute; reflexivity].
  apply (progress_cadence_and_final_100 Example.world
           (worker_search_file Example.world) Example.keyword_path
           Example.archive_tasks Example.all_callbacks (Example.in_order 6)).
  - reflexivity.
  - intros i Hi. reflexivity.
  - exact (Permutation_refl (seq 0 6)).
  - discriminate.
Defined.

(** ** Candidate files and similarity jobs *)

(** The extensions of [SUPPORTED_EXTS], kind by kind. *)
Lemma valid_exts_listed :
  valid_exts
  = [".pdf"; ".docx"; ".doc"; ".txt"; ".py"; ".c"; ".cpp"; ".h"; ".java";
     ".md"; ".json"; ".xml"; ".csv"].
Proof. reflexivity. Qed.

Lemma mem_string_In s l : mem_string s l = true <-> In s l.
Proof.
  unfold mem_string. rewrite existsb_exists. split.
  - intros (x & Hx & E). apply String.eqb_eq in E. now subst.
  - intros H. exists s. split; [assumption|apply String.eqb_refl].
Qed.

(** C9: a file listed by [get_files] is a file of the walk whose absolute
    path is not the script's own and whose extension, lower-cased, is one
    of the recognised ones; and no similarity job is built for a file whose
    absolute path is the reference file's. *)
Theorem candidates_exclude_self_and_reference (w : World) :
  (forall folder full, In full (get_files w folder) ->
     abspath w full <> myself w
     /\ exists r fs f,
          In (r, fs) (walk w folder) /\ In f fs /\ full = join w r f
          /\ In (lower (splitext_ext w f))
               [".pdf"; ".docx"; ".doc"; ".txt"; ".py"; ".c"; ".cpp"; ".h";
                ".java"; ".md"; ".json"; ".xml"; ".csv"])
  /\ (forall files ref_file ref_tokens task,
        In task (similarity_tasks w files ref_file ref_tokens) ->
        abspath w (fst task) <> abspath w ref_file
        /\ In (fst task) files
        /\ snd task = ref_tokens).
Proof.
  split.
  - intros folder full Hin. unfold get_files in Hin.
    apply in_flat_map in Hin as ([r fs] & Hd & Hin). cbn [fst snd] in Hin.
    unfold get_files_in in Hin. apply in_flat_map in Hin as (f & Hf & Hin).
    destruct (String.eqb (abspath w (join w r f)) (myself w)) eqn:Eself;
      [destruct Hin|].
    destruct (mem_string (lower (splitext_ext w f)) valid_exts) eqn:Eext;
      [|destruct Hin].
    destruct Hin as [<-|[]]. split.
    + now apply String.eqb_neq.
    + exists r, fs, f. repeat split; try assumption.
      rewrite <- valid_exts_listed. now apply mem_string_In.
  - intros files ref_file ref_tokens task Hin. unfold similarity_tasks in Hin.
    apply in_map_iff in Hin as (f & <- & Hf).
    apply filter_In in Hf as [Hf Hne]. cbn [fst snd].
    apply negb_true_iff, String.eqb_neq in Hne. auto.
Qed.

(** C10: when the reference file yields no token, [run_similarity_search]
    returns without a single callback: no job is submitted and [on_done]
    does not fire, whereas the pool run it would otherwise start calls
    [on_done] exactly once. *)
Theorem empty_reference_fires_no_callback (w : World) (files : list string)
    (ref_file : string) (cbs : Callbacks) (sched : Schedule) :
  get_tokens (extract_text_from_file w ref_file) = ∅ ->
  run_similarity_search w files ref_file cbs sched = []
  /\ (has_on_done cbs = true ->
      forall ref_tokens,
        length (List.filter is_on_done
                  (_run_pool w (worker_similarity_scan w) fst
                     (similarity_tasks w files ref_file ref_tokens) cbs sched))
        = 1%nat).
Proof.
  intros Hempty. split.
  - unfold run_similarity_search. now rewrite bool_decide_eq_true_2.
  - intros Hd ref_tokens.
    destruct (run_pool_done_once w (worker_similarity_scan w) fst
                (similarity_tasks w files ref_file ref_tokens) cbs sched Hd)
      as (_ & _ & _ & _ & H).
    exact H.
Qed.

Lemma empty_reference_fires_no_callback_witness :
  run_similarity_search Example.world (get_files Example.world "/archive")
    "/archive/empty.txt" Example.all_callbacks (Example.in_order 6) = []
  /\ (has_on_done Example.all_callbacks = true ->
      forall ref_tokens,
        length (List.filter is_on_done
                  (_run_pool Example.world
                     (worker_similarity_scan Example.world) fst
                     (similarity_tasks Example.world
                        (get_files Example.world "/archive")
                        "/archive/empty.txt" ref_tokens)
                     Example.all_callbacks (Example.in_order 6)))
        = 1%nat).
Proof.
  apply (empty_reference_fires_no_callback Example.world
           (get_files Example.world "/archive") "/archive/empty.txt"
           Example.all_callbacks (Example.in_order 6)).
  reflexivity.
Defined.

(** * Further properties of the engine *)

(** ** Text extraction *)

Section Extraction.

Variable w : World.

Definition is_pdf (path : string) : bool :=
  mem_string (lower (splitext_ext w path)) (exts_of "pdf").

Lemma pages_until_raise_labels ps i :
  List.map fst (pages_until_raise ps i)
  = List.map str_of_nat (seq (i + 1) (length (pages_until_raise ps i))).
Proof.
  revert i. induction ps as [|[t|] ps IH]; intros i; try reflexivity.
  cbn [pages_until_raise List.map fst length seq]. f_equal.
  rewrite IH. now replace (S i + 1)%nat with (S (i + 1)) by lia.
Qed.

(** The page labels of a document are ["1"], ["2"], ... in order, whatever
    its kind and however many pages could be read; a document that is not
    a PDF has at most one page. *)
Theorem extract_pages_labels (path : string) :
  List.map fst (extract_pages w path)
  = List.map str_of_nat (seq 1 (length (extract_pages w path)))
  /\ (is_pdf path = false -> (length (extract_pages w path) <= 1)%nat).
Proof.
  unfold extract_pages, is_pdf.
  destruct (mem_string (lower (splitext_ext w path)) (exts_of "pdf")).
  - split; [|discriminate].
    destruct (fitz_pages w path) as [ps|]; [|reflexivity].
    apply (pages_until_raise_labels ps 0).
  - destruct (mem_string _ (exts_of "word") && HAS_DOCX w).
    + destruct (docx_paragraphs w path); split; try reflexivity; cbn; lia.
    + destruct (read_text w path); split; try reflexivity; cbn; lia.
Qed.

Lemma all_pages_spec ps i :
  (length (pages_until_raise ps i) = length ps
   /\ all_pages ps = Returns (List.map snd (pages_until_raise ps i)))
  \/ ((length (pages_until_raise ps i) < length ps)%nat
      /\ all_pages ps = Raises).
Proof.
  revert i. induction ps as [|[t|] ps IH]; intros i.
  - left. split; reflexivity.
  - cbn [pages_until_raise all_pages bind length List.map snd].
    destruct (IH (S i)) as [[Hl ->]|[Hl ->]].
    + left. split; [now rewrite Hl|reflexivity].
    + right. split; [lia|reflexivity].
  - right. split; [cbn; lia|reflexivity].
Qed.

(** A PDF with one unreadable page has no text at all for the keyword and
    similarity searches, although the deep inspection still sees the pages
    before that one: [extract_text_from_file] is all or nothing,
    [extract_pages] keeps what it read. *)
Theorem pdf_text_is_all_or_nothing (path : string) (ps : list (outcome string)) :
  is_pdf path = true ->
  fitz_pages w path = Returns ps ->
  extract_pages w path = pages_until_raise ps 0
  /\ (length (extract_pages w path) = length ps ->
      extract_text_from_file w path
      = join_lines (List.map snd (extract_pages w path)))
  /\ ((length (extract_pages w path) < length ps)%nat ->
      extract_text_from_file w path = "").
Proof.
  unfold is_pdf. intros Hpdf Hps.
  assert (E : extract_pages w path = pages_until_raise ps 0).
  { unfold extract_pages. now rewrite Hpdf, Hps. }
  rewrite E. split; [reflexivity|].
  unfold extract_text_from_file. rewrite Hpdf, Hps. cbn [bind].
  destruct (all_pages_spec ps 0) as [[Hl ->]|[Hl ->]]; split; intros H;
    try reflexivity; lia.
Qed.

End Extraction.

Lemma pdf_text_is_all_or_nothing_witness :
  extract_pages Example.world "/archive/REPORT.PDF"
  = pages_until_raise
      [Returns (Example.paragraph_one ++ Example.line_break
                ++ Example.line_break ++ Example.paragraph_two);
       Returns Example.paragraph_one] 0
  /\ (length (extract_pages Example.world "/archive/REPORT.PDF")
      = length [Returns (Example.paragraph_one ++ Example.line_break
                         ++ Example.line_break ++ Example.paragraph_two);
                Returns Example.paragraph_one] ->
      extract_text_from_file Example.world "/archive/REPORT.PDF"
      = join_lines
          (List.map snd (extract_pages Example.world "/archive/REPORT.PDF")))
  /\ ((length (extract_pages Example.world "/archive/REPORT.PDF")
       < length [Returns (Example.paragraph_one ++ Example.line_break
                          ++ Example.line_break ++ Example.paragraph_two);
                 Returns Example.paragraph_one])%nat ->
      extract_text_from_file Example.world "/archive/REPORT.PDF" = "").
Proof.
  apply (pdf_text_is_all_or_nothing Example.world "/archive/REPORT.PDF").
  - reflexivity.
  - reflexivity.
Defined.

(** ** Keyword matching: what is found, and the snippet *)

Lemma append_cons c s t : String c s ++ t = String c (s ++ t).
Proof. reflexivity. Qed.

Lemma append_nil t : "" ++ t = t.
Proof. reflexivity. Qed.

Lemma length_reverse_onto s acc :
  String.length (reverse_onto s acc) = (String.length s + String.length acc)%nat.
Proof.
  revert acc. induction s as [|c s IH]; intros acc; [reflexivity|].
  cbn [reverse_onto String.length]. rewrite IH. cbn [String.length]. lia.
Qed.

Lemma length_reversed s : String.length (reversed s) = String.length s.
Proof. unfold reversed. rewrite length_reverse_onto. cbn. lia. Qed.

Lemma length_lstrip s : (String.length (lstrip s) <= String.length s)%nat.
Proof.
  induction s as [|c s IH]; [reflexivity|].
  cbn [lstrip]. destruct (isspace c); cbn [String.length]; lia.
Qed.

Lemma length_strip s : (String.length (strip s) <= String.length s)%nat.
Proof.
  unfold strip, rstrip. rewrite length_reversed.
  etransitivity; [apply length_lstrip|]. rewrite length_reversed.
  apply length_lstrip.
Qed.

Lemma length_replace_char old c s :
  String.length (replace old (String c "") s) = String.length s.
Proof.
  induction s as [|x s IH]; [reflexivity|].
  cbn [replace]. destruct (Ascii.eqb x old).
  - rewrite append_cons, append_nil. cbn [String.length]. now rewrite IH.
  - cbn [String.length]. now rewrite IH.
Qed.

Lemma length_substring n m s : (String.length (substring n m s) <= m)%nat.
Proof.
  revert n m. induction s as [|c s IH]; intros [|n] [|m]; cbn; try lia.
  - specialize (IH 0%nat m). lia.
  - apply (IH n 0%nat).
  - apply (IH n (S m)).
Qed.

Lemma length_append s t :
  String.length (s ++ t) = (String.length s + String.length t)%nat.
Proof.
  induction s as [|c s IH]; [reflexivity|].
  rewrite append_cons. cbn [String.length]. now rewrite IH.
Qed.

Lemma find_lower_bound hay needle : (-1 <= find hay needle)%Z.
Proof.
  induction hay as [|c hay IH]; cbn [find].
  - destruct (startswith needle ""); lia.
  - destruct (startswith needle (String c hay)); [lia|].
    destruct (find hay needle =? -1)%Z; lia.
Qed.

(** A window holds at most 80 characters of the text between its
    ellipses. *)
Lemma length_window raw text_lower start :
  (0 <= start)%Z -> (String.length (window raw text_lower start) <= 86)%nat.
Proof.
  intros Hs. unfold window. cbv zeta.
  rewrite !length_append. cbn [String.length].
  pose proof (length_strip
    (replace NL " " (slice raw (Z.max 0 (start - 40))
                       (Z.min (len text_lower) (start + 40))))) as H1.
  rewrite length_replace_char in H1.
  pose proof (length_substring (Z.to_nat (Z.max 0 (start - 40)))
    (Z.to_nat (Z.min (len text_lower) (start + 40) - Z.max 0 (start - 40)))
    raw) as H2.
  unfold slice in *. lia.
Qed.

(** In literal mode a found term always leads to a window: at the place
    of its first occurrence, or at offset 0. *)
Lemma located_window raw match_term query :
  exists start,
    (0 <= start)%Z
    /\ (let term := if truthy match_term then match_term else query in
        let start := find (lower raw) term in
        let start := if (start =? -1)%Z && negb false then 0%Z else start in
        if negb (start =? -1)%Z
        then Returns (true, window raw (lower raw) start)
        else Returns (true, "Match found"))
       = Returns (true, window raw (lower raw) start).
Proof.
  cbv zeta. set (term := if truthy match_term then match_term else query).
  pose proof (find_lower_bound (lower raw) term) as Hlb.
  destruct (Z.eqb_spec (find (lower raw) term) (-1)) as [E|Hne].
  - exists 0%Z. split; [lia|reflexivity].
  - exists (find (lower raw) term). split; [lia|].
    cbn [andb].
    destruct (Z.eqb_spec (find (lower raw) term) (-1)); [contradiction|].
    reflexivity.
Qed.





Section MatchOutcome.

Variable w : World.

Lemma literal_match_outcome (raw query : string) (qrev : option string) :
  let text_compressed := translate CLEAN_TRANS (lower raw) in
  let found :=
    truthy raw
    && (contains query text_compressed
        || match qrev with
           | Some qr => truthy qr && contains qr text_compressed
           | None => false
           end) in
  exists snippet,
    _check_match w raw query qrev false = Returns (found, snippet)
    /\ (found = false -> snippet = "")
    /\ (found = true ->
        exists start, (0 <= start)%Z /\ snippet = window raw (lower raw) start).
Proof.
  intros text_compressed found. unfold _check_match.
  destruct (truthy raw) eqn:Ht; cbn [negb].
  2:{ exists "". subst found. cbn. repeat split; auto; discriminate. }
  fold text_compressed. unfold literal_match.
  subst found. cbn [andb].
  destruct (contains query text_compressed) eqn:Eq; cbn [orb].
  - destruct (located_window raw query query) as (start & H0 & E).
    exists (window raw (lower raw) start).
    split; [exact E|]. split; [discriminate|eauto].
  - destruct qrev as [qr|].
    + destruct (truthy qr && contains qr text_compressed) eqn:Er.
      * destruct (located_window raw qr query) as (start & H0 & E).
        exists (window raw (lower raw) start).
        split; [exact E|]. split; [discriminate|eauto].
      * exists "". repeat split; auto; discriminate.
    + exists "". repeat split; auto; discriminate.
Qed.

(** In literal mode a match is reported exactly when the text is not
    empty and its compressed form contains the query or the non-empty
    reversed query.  A reported match carries a window of the text between
    ellipses; no match carries the empty snippet. *)
Theorem literal_match_decides (raw query : string) (qrev : option string) :
  let text_compressed := translate CLEAN_TRANS (lower raw) in
  let found :=
    truthy raw
    && (contains query text_compressed
        || match qrev with
           | Some qr => truthy qr && contains qr text_compressed
           | None => false
           end) in
  exists snippet,
    _check_match w raw query qrev false = Returns (found, snippet)
    /\ (found = false -> snippet = "")
    /\ (found = true ->
        exists start, (0 <= start)%Z /\ snippet = window raw (lower raw) start).
Proof. exact (literal_match_outcome raw query qrev). Qed.


(** Whatever the mode, a snippet is at most 86 characters long, and it is
    empty when nothing is found. *)
Theorem snippet_is_short (raw query : string) (qrev : option string)
    (use_regex found : bool) (snippet : string) :
  _check_match w raw query qrev use_regex = Returns (found, snippet) ->
  (String.length snippet <= 86)%nat
  /\ (found = false -> snippet = "").
Proof.
  unfold _check_match. destruct (negb (truthy raw)).
  { intros [= <- <-]. split; [cbn; lia|reflexivity]. }
  destruct (if use_regex then _ else _) as [[] mt].
  2:{ intros [= <- <-]. split; [cbn; lia|reflexivity]. }
  cbv zeta.
  set (term := if truthy mt then mt else query).
  pose proof (find_lower_bound (lower raw) term) as Hlb.
  destruct (Z.eqb_spec (find (lower raw) term) (-1)) as [E|Hne].
  - rewrite E. cbn [Z.eqb andb]. destruct use_regex; cbn [negb andb Z.eqb].
    + intros [= <- <-]. split; [cbn; lia|discriminate].
    + intros [= <- <-]. split; [apply length_window; lia|discriminate].
  - cbn [andb].
    destruct (Z.eqb_spec (find (lower raw) term) (-1)); [contradiction|].
    cbn [negb]. intros [= <- <-].
    split; [apply length_window; lia|discriminate].
Qed.

End MatchOutcome.

Lemma snippet_is_short_witness :
  (String.length "...hello world..." <= 86)%nat
  /\ (true = false -> "...hello world..." = "").
Proof.
  apply (snippet_is_short Example.world "hello world" "hello" (Some "olleh")
           false true "...hello world...").
  reflexivity.
Defined.


(** ** Case and mirrored queries *)

Lemma lower_char_idempotent c : lower_char (lower_char c) = lower_char c.
Proof. destruct c as [[] [] [] [] [] [] [] []]; vm_compute; reflexivity. Qed.

Lemma lower_idempotent s : lower (lower s) = lower s.
Proof.
  induction s as [|c s IH]; [reflexivity|].
  cbn [lower]. now rewrite lower_char_idempotent, IH.
Qed.

Lemma truthy_lower s : truthy (lower s) = truthy s.
Proof. destruct s; reflexivity. Qed.

Lemma truthy_length s : truthy s = Nat.ltb 0 (String.length s).
Proof. destruct s; reflexivity. Qed.

Lemma truthy_reversed s : truthy (reversed s) = truthy s.
Proof. now rewrite !truthy_length, length_reversed. Qed.

Section CaseAndMirror.

Variable w : World.

(** The literal search ignores case on both sides: a query and its
    lower-cased form build the same jobs, and a text and its lower-cased
    form are found or not found alike. *)
Theorem literal_search_ignores_case (files : list string)
    (raw query : string) (qrev : option string) :
  keyword_tasks files (lower query) false = keyword_tasks files query false
  /\ exists found s1 s2,
       _check_match w raw query qrev false = Returns (found, s1)
       /\ _check_match w (lower raw) query qrev false = Returns (found, s2).
Proof.
  split.
  - unfold keyword_tasks, normalize_query. now rewrite lower_idempotent.
  - destruct (literal_match_outcome w raw query qrev) as (s1 & E1 & _).
    destruct (literal_match_outcome w (lower raw) query qrev) as (s2 & E2 & _).
    cbv zeta in E1, E2. rewrite lower_idempotent, truthy_lower in E2.
    eauto.
Qed.

(** The reversed-query fallback: a file whose compressed text contains the
    mirror image of the non-empty normalised query is reported, like a file
    that contains the query itself. *)
Theorem mirrored_query_reported (files : list string) (query f : string) :
  In f files ->
  truthy (extract_text_from_file w f) = true ->
  truthy (normalize_query query false) = true ->
  contains (reversed (normalize_query query false))
    (translate CLEAN_TRANS (lower (extract_text_from_file w f))) = true ->
  exists task snippet,
    In task (keyword_tasks files query false)
    /\ worker_search_file w task
       = Returns (KeywordResult true f (PStr "Text") snippet).
Proof.
  intros Hin Ht Hq Hc.
  destruct (literal_match_outcome w (extract_text_from_file w f)
              (normalize_query query false)
              (Some (reversed (normalize_query query false))))
    as (snippet & E & _).
  cbv zeta in E. rewrite Ht, Hc, truthy_reversed, Hq in E.
  rewrite orb_true_r in E. cbn [andb] in E.
  exists (f, normalize_query query false,
          Some (reversed (normalize_query query false)), false), snippet.
  split.
  - unfold keyword_tasks. apply in_map_iff. exists f. auto.
  - unfold worker_search_file. rewrite E. reflexivity.
Qed.

End CaseAndMirror.

Lemma mirrored_query_reported_witness :
  exists task snippet,
    In task (keyword_tasks ["/archive/a.txt"] "dlrow" false)
    /\ worker_search_file Example.world task
       = Returns (KeywordResult true "/archive/a.txt" (PStr "Text") snippet).
Proof.
  apply (mirrored_query_reported Example.world ["/archive/a.txt"] "dlrow"
           "/archive/a.txt").
  - left; reflexivity.
  - reflexivity.
  - reflexivity.
  - vm_compute; reflexivity.
Defined.

(** ** Tokens *)

Fixpoint all_chars (p : ascii -> bool) (s : string) : bool :=
  match s with
  | "" => true
  | String c t => p c && all_chars p t
  end.

Definition lower_word_char (c : ascii) : bool :=
  is_word c && Ascii.eqb (lower_char c) c.

Lemma all_chars_reverse_onto p s acc :
  all_chars p (reverse_onto s acc) = all_chars p s && all_chars p acc.
Proof.
  revert acc. induction s as [|c s IH]; intros acc; [reflexivity|].
  cbn [reverse_onto all_chars]. rewrite IH. cbn [all_chars].
  destruct (p c), (all_chars p s), (all_chars p acc); reflexivity.
Qed.

Lemma all_chars_reversed p s : all_chars p (reversed s) = all_chars p s.
Proof. unfold reversed. rewrite all_chars_reverse_onto. cbn. apply andb_true_r. Qed.

Lemma all_chars_lower_fixed s : all_chars (fun c => Ascii.eqb (lower_char c) c) s = true ->
  lower s = s.
Proof.
  induction s as [|c s IH]; [reflexivity|].
  cbn [all_chars lower]. intros H. apply andb_true_iff in H as [Hc Hs].
  apply Ascii.eqb_eq in Hc. now rewrite Hc, IH.
Qed.

Lemma findall_words_chars s cur word :
  all_chars (fun c => Ascii.eqb (lower_char c) c) s = true ->
  all_chars lower_word_char cur = true ->
  In word (findall_words s cur) ->
  all_chars lower_word_char word = true.
Proof.
  revert cur. induction s as [|c s IH]; intros cur Hs Hcur Hin.
  - cbn [findall_words] in Hin. destruct (truthy cur); [|destruct Hin].
    destruct Hin as [<-|[]]. now rewrite all_chars_reversed.
  - cbn [all_chars] in Hs. apply andb_true_iff in Hs as [Hc Hs].
    cbn [findall_words] in Hin. destruct (is_word c) eqn:Ew.
    + apply (IH (String c cur)); try assumption.
      cbn [all_chars]. unfold lower_word_char at 1. now rewrite Ew, Hc, Hcur.
    + apply in_app_or in Hin as [Hin|Hin].
      * destruct (truthy cur); [|destruct Hin].
        destruct Hin as [<-|[]]. now rewrite all_chars_reversed.
      * apply (IH ""); auto.
Qed.

Lemma all_chars_lower s :
  all_chars (fun c => Ascii.eqb (lower_char c) c) (lower s) = true.
Proof.
  induction s as [|c s IH]; [reflexivity|].
  cbn [lower all_chars]. rewrite lower_char_idempotent, Ascii.eqb_refl.
  exact IH.
Qed.

Lemma all_chars_weaken (p q : ascii -> bool) s :
  (forall c, p c = true -> q c = true) ->
  all_chars p s = true -> all_chars q s = true.
Proof.
  intros Hpq. induction s as [|c s IH]; [reflexivity|].
  cbn [all_chars]. intros H. apply andb_true_iff in H as [Hc Hs].
  now rewrite (Hpq c Hc), IH.
Qed.

(** Every token is longer than three characters, consists of word
    characters only, and is in lower case. *)
Theorem tokens_are_long_lower_words (text token : string) :
  token ∈ get_tokens text ->
  (3 < String.length token)%nat
  /\ all_chars is_word token = true
  /\ lower token = token.
Proof.
  unfold get_tokens. rewrite elem_of_list_to_set, list_elem_of_In.
  intros Hin. apply filter_In in Hin as [Hin Hlen].
  apply Nat.ltb_lt in Hlen. split; [assumption|].
  assert (H : all_chars lower_word_char token = true).
  { apply (findall_words_chars (lower text) "" token);
      [apply all_chars_lower|reflexivity|assumption]. }
  split.
  - revert H. apply all_chars_weaken. intros c Hc.
    unfold lower_word_char in Hc. now apply andb_true_iff in Hc as [? _].
  - apply all_chars_lower_fixed. revert H. apply all_chars_weaken.
    intros c Hc. unfold lower_word_char in Hc.
    now apply andb_true_iff in Hc as [_ ?].
Qed.

Lemma tokens_are_long_lower_words_witness :
  (3 < String.length "alpha")%nat
  /\ all_chars is_word "alpha" = true
  /\ lower "alpha" = "alpha".
Proof.
  apply (tokens_are_long_lower_words "Alpha, BETA; is a gamma" "alpha").
  vm_compute. reflexivity.
Defined.

(** ** Similarity scores *)

Lemma tokens_inter_comm (X Y : gset string) : X ∩ Y = Y ∩ X.
Proof. apply set_eq. intros x. rewrite !elem_of_intersection. tauto. Qed.

Lemma tokens_union_comm (X Y : gset string) : X ∪ Y = Y ∪ X.
Proof. apply set_eq. intros x. rewrite !elem_of_union. tauto. Qed.

Lemma tokens_inter_self (X : gset string) : X ∩ X = X.
Proof. apply set_eq. intros x. rewrite elem_of_intersection. tauto. Qed.

Lemma tokens_union_self (X : gset string) : X ∪ X = X.
Proof. apply set_eq. intros x. rewrite elem_of_union. tauto. Qed.

Lemma jaccard_score_unfold (X Y : gset string) :
  Y <> ∅ ->
  jaccard_score X Y
  = F64.fmul (F64.fdiv (inject_Z (Z.of_nat (size (X ∩ Y))))
                       (inject_Z (Z.of_nat (size (X ∪ Y))))) 100.
Proof.
  intros HY. unfold jaccard_score.
  pose proof (size_union_pos X Y HY).
  destruct (Z.ltb_spec 0 (Z.of_nat (size (X ∪ Y)))); [reflexivity|lia].
Qed.

(** The score does not depend on which of the two token sets is the
    reference, and it lies between 0 and 100. *)
Theorem jaccard_score_symmetric_bounded (X Y : gset string) :
  jaccard_score X Y = jaccard_score Y X
  /\ (0 <= jaccard_score X Y <= 100)%Q.
Proof.
  split.
  - unfold jaccard_score.
    rewrite (tokens_inter_comm Y X), (tokens_union_comm Y X).
    reflexivity.
  - unfold jaccard_score.
    pose proof (size_inter_le_union X Y) as Hle.
    destruct (Z.ltb_spec 0 (Z.of_nat (size (X ∪ Y)))) as [Hpos|_];
      [|split; discriminate].
    split.
    + unfold F64.fmul. apply F64.fl_nonneg.
      apply Qmult_le_0_compat; [|discriminate].
      apply F64.fdiv_nonneg; lia.
    + apply F64.fmul100_le.
      * apply F64.fdiv_nonneg; lia.
      * apply F64.fdiv_le_one; lia.
Qed.

(** A target whose tokens are exactly the reference tokens is reported
    with the score 100.0. *)
Theorem same_tokens_score_100 (w : World) (path : string)
    (ref_tokens : gset string) :
  ref_tokens <> ∅ ->
  get_tokens (extract_text_from_file w path) = ref_tokens ->
  worker_similarity_scan w (path, ref_tokens)
  = Returns (SimilarityResult true path 100).
Proof.
  intros Hne Heq.
  assert (Ht : truthy (extract_text_from_file w path) = true).
  { destruct (extract_text_from_file w path); [|reflexivity].
    exfalso. apply Hne. rewrite <- Heq. reflexivity. }
  unfold worker_similarity_scan. rewrite Ht, Heq. cbn [negb].
  rewrite bool_decide_eq_false_2 by assumption.
  rewrite jaccard_score_unfold by assumption.
  rewrite tokens_inter_self, tokens_union_self.
  assert (Hpos : (0 < size ref_tokens)%nat).
  { destruct (size ref_tokens) eqn:E; [|lia].
    apply size_empty_inv, leibniz_equiv in E. contradiction. }
  rewrite F64.fdiv_same by lia. reflexivity.
Qed.

Lemma same_tokens_score_100_witness :
  worker_similarity_scan Example.world
    ("/archive/sub/c.TXT", get_tokens "Delta gamma BETA alpha alpha")
  = Returns (SimilarityResult true "/archive/sub/c.TXT" 100).
Proof.
  apply (same_tokens_score_100 Example.world "/archive/sub/c.TXT"
           (get_tokens "Delta gamma BETA alpha alpha")).
  - intros H. apply (f_equal size) in H. vm_compute in H. discriminate.
  - vm_compute. reflexivity.
Defined.

(** ** Chunks and comparison results *)

Lemma chunks_of_page_spec page_num pieces next_id :
  forall items n, chunks_of_page page_num pieces next_id = (items, n) ->
  n = (next_id + length items)%nat
  /\ List.map chunk_id items
     = List.map str_of_nat (seq next_id (length items))
  /\ forall c, In c items ->
       chunk_page c = page_num
       /\ (10 < String.length (chunk_text c))%nat
       /\ exists piece, In piece pieces /\ chunk_text c = strip piece.
Proof.
  revert next_id. induction pieces as [|piece rest IH]; intros next_id items n H.
  - cbn in H. injection H as <- <-. cbn.
    split; [lia|]. split; [reflexivity|]. intros ? [].
  - cbn [chunks_of_page] in H.
    destruct (Nat.ltb 10 (String.length (strip piece))) eqn:Elen.
    + destruct (chunks_of_page page_num rest (S next_id)) as [items' n'] eqn:E.
      injection H as <- <-.
      destruct (IH _ _ _ E) as (Hn & Hids & Hall).
      split; [cbn [length]; lia|]. split.
      * cbn [List.map length seq chunk_id]. now rewrite Hids.
      * intros c [<-|Hc].
        -- cbn. apply Nat.ltb_lt in Elen.
           repeat split; [assumption|]. exists piece. split; [now left|reflexivity].
        -- destruct (Hall c Hc) as (? & ? & p & ? & ?).
           repeat split; try assumption. exists p. split; [now right|assumption].
    + destruct (IH _ _ _ H) as (Hn & Hids & Hall).
      split; [assumption|]. split; [assumption|].
      intros c Hc. destruct (Hall c Hc) as (? & ? & p & ? & ?).
      repeat split; try assumption. exists p. split; [now right|assumption].
Qed.

Lemma parse_pages_spec pages next_id :
  List.map chunk_id (parse_pages pages next_id)
  = List.map str_of_nat (seq next_id (length (parse_pages pages next_id)))
  /\ forall c, In c (parse_pages pages next_id) ->
       (10 < String.length (chunk_text c))%nat
       /\ In (chunk_page c) (List.map fst pages).
Proof.
  revert next_id. induction pages as [|[page_num page_text] rest IH];
    intros next_id.
  - split; [reflexivity|intros ? []].
  - cbn [parse_pages].
    destruct (chunks_of_page page_num _ next_id) as [items n] eqn:E.
    destruct (chunks_of_page_spec _ _ _ _ _ E) as (Hn & Hids & Hall).
    destruct (IH n) as [IHids IHall].
    split.
    + rewrite List.map_app, length_app, List.seq_app, List.map_app.
      rewrite Hids, IHids. now rewrite Hn.
    + intros c Hc. apply in_app_or in Hc as [Hc|Hc].
      * destruct (Hall c Hc) as (-> & ? & _). split; [assumption|now left].
      * destruct (IHall c Hc). split; [assumption|now right].
Qed.

(** The chunks of a document are numbered ["1"], ["2"], ... across all its
    pages; each one is longer than 10 characters and carries the label of
    one of the document's pages. *)
Theorem chunk_ids_count_across_pages (w : World) (path : string) :
  let chunks := parse_text_chunks_with_location w path in
  List.map chunk_id chunks
  = List.map str_of_nat (seq 1 (length chunks))
  /\ forall c, In c chunks ->
       (10 < String.length (chunk_text c))%nat
       /\ In (chunk_page c) (List.map fst (extract_pages w path)).
Proof. apply parse_pages_spec. Qed.

Lemma round1_mono x y : (x <= y)%Q -> (F64.round1 x <= F64.round1 y)%Q.
Proof.
  intros H. unfold F64.round1. apply Qred_le.
  unfold Qle; cbn [Qnum Qden].
  apply Z.mul_le_mono_nonneg_r; [lia|].
  apply F64.rne_mono; try lia.
  unfold Qle in H. lia.
Qed.

Definition long_enoughb (c : Chunk) : bool :=
  negb (Nat.ltb (String.length (chunk_text c)) 50).

Section ResultShape.

Variable w : World.

Lemma compare_chunks_length ref_data tgt_data :
  (length (compare_chunks w ref_data tgt_data)
   <= length (List.filter long_enoughb ref_data))%nat.
Proof.
  induction ref_data as [|c rest IH]; [reflexivity|].
  cbn [compare_chunks List.filter]. unfold long_enoughb at 1.
  destruct (Nat.ltb (String.length (chunk_text c)) 50); cbn [negb]; [assumption|].
  destruct (best_match w c tgt_data 0 "-") as [s p].
  destruct (F64.gtb s 15); cbn [length]; lia.
Qed.

(** Every result names the page of a target chunk that took part in the
    comparison (never the placeholder ["-"]) and has a score of at least
    15; there are at most as many results as reference chunks of 50
    characters or more; and a target without such a chunk gives no result
    at all. *)
Theorem results_name_compared_pages (ref_path target_path : string) :
  let ref_data := parse_text_chunks_with_location w ref_path in
  let tgt_data := parse_text_chunks_with_location w target_path in
  let results := compare_structure w ref_path target_path in
  (forall r, In r results ->
     (exists t, In t tgt_data /\ long_enough t /\ tgt_page r = chunk_page t)
     /\ (15 <= score r)%Q)
  /\ (length results <= length (List.filter long_enoughb ref_data))%nat
  /\ ((forall t, In t tgt_data -> ~ long_enough t) -> results = []).
Proof.
  intros ref_data tgt_data results.
  assert (Hres : forall r, In r results ->
    (exists t, In t tgt_data /\ long_enough t /\ tgt_page r = chunk_page t)
    /\ (15 <= score r)%Q).
  { intros r Hin.
    apply (Permutation_in r (Permutation_sym (sort_desc_perm _))) in Hin.
    apply compare_chunks_in in Hin as (c & s & p & Hc & Hl & Hb & Hs & ->).
    cbn [tgt_page score].
    destruct (best_match_tracks_first w _ _ _ _ Hb) as [_ Hcase].
    split.
    - destruct Hcase as [[-> _]|(l1 & t & l2 & Hsplit & Ht & _ & Hp & _)].
      + exfalso. revert Hs. apply Qle_not_lt. discriminate.
      + exists t. repeat split; [|assumption|now symmetry].
        unfold tgt_data. rewrite Hsplit. apply in_or_app. right. now left.
    - change 15%Q with (F64.round1 15). apply round1_mono.
      now apply Qlt_le_weak. }
  split; [exact Hres|]. split.
  - unfold results, compare_structure.
    rewrite <- (Permutation_length (sort_desc_perm _)).
    apply compare_chunks_length.
  - intros Hnone. destruct results as [|r rest] eqn:E; [reflexivity|exfalso].
    destruct (Hres r (or_introl eq_refl)) as [(t & Ht & Hl & _) _].
    exact (Hnone t Ht Hl).
Qed.

End ResultShape.

(** ** Counting matches and reporting progress *)

Section PoolCounts.

Variable w : World.
Context {T : Type}.
Variable worker : T -> outcome job_result.
Variable path_of : T -> string.
Variable cbs : Callbacks.
Variable total : nat.

Lemma match_events_count t :
  has_on_match cbs = true ->
  length (List.filter is_on_match (match_events worker cbs t))
  = if job_matched worker t then 1%nat else 0%nat.
Proof.
  intros Hm. unfold match_events, job_matched. rewrite Hm.
  destruct (worker t) as [res|]; [|reflexivity].
  destruct (res0 res); reflexivity.
Qed.

Lemma pool_loop_match_count flags completed i c m :
  has_on_match cbs = true ->
  fst (pool_loop w worker path_of cbs total flags completed i c m)
  = (m + length (List.filter is_on_match
                   (snd (pool_loop w worker path_of cbs total flags
                           completed i c m))))%nat.
Proof.
  intros Hm. revert i c m.
  induction completed as [|t rest IH]; intros i c m; [cbn; lia|].
  cbn [pool_loop]. destruct (flags i); [cbn; lia|].
  specialize (IH (S i) (S c) (if job_matched worker t then S m else m)).
  destruct (pool_loop w worker path_of cbs total flags rest (S i) (S c) _)
    as [m' evs].
  cbn [fst snd] in *. rewrite !List.filter_app, !length_app.
  rewrite prog_events_no_match, (match_events_count t Hm). cbn [length].
  destruct (job_matched worker t); lia.
Qed.

End PoolCounts.

Section PoolTotals.

Variable w : World.
Context {T : Type}.
Variable worker : T -> outcome job_result.
Variable path_of : T -> string.

(** Whether the run is cancelled or not, the count passed to the done
    callback is the number of match callbacks invoked before it. *)
Theorem done_counts_the_match_callbacks (tasks : list T) (cbs : Callbacks)
    (sched : Schedule) :
  has_on_match cbs = true ->
  has_on_done cbs = true ->
  exists evs,
    _run_pool w worker path_of tasks cbs sched
    = (evs ++ [OnDone (length (List.filter is_on_match evs))])%list
    /\ forall e, In e evs -> is_on_done e = false.
Proof.
  intros Hm Hd. unfold _run_pool.
  pose proof (pool_loop_match_count w worker path_of cbs (length tasks)
                (flag_at sched)
                (in_completion_order tasks (completion_order sched)) 0 0 0 Hm)
    as Hcount.
  destruct (pool_loop w worker path_of cbs (length tasks) (flag_at sched) _ 0 0 0)
    as [m evs] eqn:E.
  cbn [fst snd] in Hcount. rewrite Hd, Hcount. exists evs. split; [reflexivity|].
  intros e He. eapply (pool_loop_events w worker path_of cbs (length tasks)).
  rewrite E. exact He.
Qed.

(** With no job to run, the done callback alone is invoked, with 0: the
    progress percentage, a division by the number of tasks, is never
    computed. *)
Theorem empty_run_reports_zero (cbs : Callbacks) (sched : Schedule) :
  _run_pool w worker path_of [] cbs sched
  = if has_on_done cbs then [OnDone 0] else [].
Proof.
  unfold _run_pool, in_completion_order.
  assert (E : omap (fun i => ([] : list T) !! i) (completion_order sched) = []).
  { induction (completion_order sched) as [|i l IH]; [reflexivity|].
    cbn. exact IH. }
  rewrite E. reflexivity.
Qed.

End PoolTotals.

Lemma done_counts_the_match_callbacks_witness :
  exists evs,
    _run_pool Example.world (worker_search_file Example.world)
      Example.keyword_path Example.archive_tasks Example.all_callbacks
      (Example.in_order 6)
    = (evs ++ [OnDone (length (List.filter is_on_match evs))])%list
    /\ forall e, In e evs -> is_on_done e = false.
Proof.
  apply (done_counts_the_match_callbacks Example.world
           (worker_search_file Example.world) Example.keyword_path
           Example.archive_tasks Example.all_callbacks (Example.in_order 6)).
  - reflexivity.
  - reflexivity.
Defined.

(** The double just below 1. *)
Definition below_one : Q := 9007199254740991 # 9007199254740992.

(** The percentage lies between 0 and 99 before the last job and is 100
    at the last job: the bar is full only when the run is complete. *)
Theorem percent_full_only_at_the_end (count total : nat) :
  (0 < total)%nat -> (Z.of_nat total < 2 ^ 53)%Z ->
  (count <= total)%nat ->
  (0 <= percent count total <= 100)%Z
  /\ ((count < total)%nat -> (percent count total <= 99)%Z)
  /\ (count = total -> percent count total = 100%Z).
Proof.
  intros Ht Hbig Hc.
  assert (H0 : (0 <= percent count total)%Z).
  { change 0%Z with (F64.int 0). unfold percent. apply F64.int_mono.
    - apply Qle_refl.
    - unfold F64.fmul. apply F64.fl_nonneg.
      apply Qmult_le_0_compat; [|discriminate]. apply F64.fdiv_nonneg; lia. }
  assert (H100 : (percent count total <= 100)%Z).
  { rewrite <- (percent_final total Ht). apply percent_mono; lia. }
  split; [lia|]. split.
  - intros Hlt. unfold percent.
    assert (Hq : (F64.fdiv (inject_Z (Z.of_nat count)) (inject_Z (Z.of_nat total))
                  <= F64.fl below_one)%Q).
    { rewrite F64.fdiv_Z by lia. apply F64.fl_mono.
      - unfold Qle; cbn. lia.
      - unfold Qle, below_one; cbn [Qnum Qden]. rewrite Z2Pos.id by lia.
        assert (2 ^ 53 = 9007199254740992)%Z by reflexivity. nia.
      - reflexivity. }
    change 99%Z with (F64.int (F64.fmul (F64.fl below_one) 100)).
    apply F64.int_mono.
    + unfold F64.fmul. apply F64.fl_nonneg.
      apply Qmult_le_0_compat; [|discriminate]. apply F64.fdiv_nonneg; lia.
    + apply F64.fmul100_mono; [apply F64.fdiv_nonneg; lia|assumption|].
      vm_compute. discriminate.
  - intros ->. now apply percent_final.
Qed.

Lemma percent_full_only_at_the_end_witness :
  (0 <= percent 29 100 <= 100)%Z
  /\ ((29 < 100)%nat -> (percent 29 100 <= 99)%Z)
  /\ (29%nat = 100%nat -> percent 29 100 = 100%Z).
Proof.
  apply (percent_full_only_at_the_end 29 100).
  - lia.
  - reflexivity.
  - lia.
Defined.

(** ** The candidate list and the jobs, exactly *)

Lemma candidates_files_spec (w : World) folder full :
  In full (get_files w folder) ->
  abspath w full <> myself w
  /\ exists r fs f,
       In (r, fs) (walk w folder) /\ In f fs /\ full = join w r f
       /\ In (lower (splitext_ext w f)) valid_exts.
Proof.
  intros Hin. unfold get_files in Hin.
  apply in_flat_map in Hin as ([r fs] & Hd & Hin). cbn [fst snd] in Hin.
  unfold get_files_in in Hin. apply in_flat_map in Hin as (f & Hf & Hin).
  destruct (String.eqb (abspath w (join w r f)) (myself w)) eqn:Eself;
    [destruct Hin|].
  destruct (mem_string (lower (splitext_ext w f)) valid_exts) eqn:Eext;
    [|destruct Hin].
  destruct Hin as [<-|[]]. split.
  - now apply String.eqb_neq.
  - exists r, fs, f. repeat split; try assumption. now apply mem_string_In.
Qed.


(** A file of the walk is listed exactly when its absolute path is not the
    script's own and its lower-cased extension is recognised; one keyword
    job is built per file, in order, all with the same normalised query;
    one similarity job is built, in order, per file whose absolute path is
    not the reference file's. *)
Theorem candidates_and_jobs_exact (w : World) :
  (forall folder full,
     In full (get_files w folder) <->
     exists r fs f,
       In (r, fs) (walk w folder) /\ In f fs /\ full = join w r f
       /\ abspath w full <> myself w
       /\ In (lower (splitext_ext w f)) valid_exts)
  /\ (forall files query regex,
        List.map (fun t => fst (fst (fst t))) (keyword_tasks files query regex)
        = files
        /\ forall t, In t (keyword_tasks files query regex) ->
             snd (fst (fst t)) = normalize_query query regex
             /\ snd t = regex
             /\ snd (fst t)
                = if regex then None
                  else Some (reversed (normalize_query query regex)))
  /\ (forall files ref_file ref_tokens,
        List.map fst (similarity_tasks w files ref_file ref_tokens)
        = List.filter
            (fun f => negb (String.eqb (abspath w f) (abspath w ref_file)))
            files).
Proof.
  split; [|split].
  - intros folder full. split.
    + intros Hin.
      destruct (candidates_files_spec w folder full Hin)
        as (Hself & r & fs & f & H1 & H2 & H3 & H4).
      exists r, fs, f. auto.
    + intros (r & fs & f & Hd & Hf & -> & Hself & Hext).
      unfold get_files. apply in_flat_map. exists (r, fs). split; [assumption|].
      cbn [fst snd]. unfold get_files_in. apply in_flat_map. exists f.
      split; [assumption|].
      apply String.eqb_neq in Hself. rewrite Hself.
      apply mem_string_In in Hext. rewrite Hext. now left.
  - intros files query regex. unfold keyword_tasks. split.
    + rewrite List.map_map. cbn [fst]. apply List.map_id.
    + intros t Ht. apply in_map_iff in Ht as (f & <- & _). cbn. auto.
  - intros files ref_file ref_tokens. unfold similarity_tasks.
    rewrite List.map_map. cbn [fst]. apply List.map_id.
Qed.
